(** * Authentication gateway of the runixo agent

    A shallow embedding of the two authentication checkpoints of the agent:
    the gRPC interceptor of package [auth] (internal/auth/auth.go) and the
    REST middleware of package [api].  Both keep a table of failed attempts
    per peer address, lock an address out after five failures, and compare
    the presented credential with a static secret.  Package [auth] also
    issues HMAC-signed tokens and keeps a registry of sessions.

    Conventions of the embedding.
    - A [time.Time] is a [Z]: nanoseconds counted from Go's zero Time, so
      the zero value of a [time.Time] field is [0] and every reading of a
      running clock is positive.  [time.Duration] is a [Z] of nanoseconds.
    - Go's [int] is a [Z] kept in the 64-bit signed range by [wrap_int].
    - Go strings and byte slices are [string]s (sequences of bytes).
    - A function that calls [time.Now()] takes each reading as an argument,
      one per call site, in the order the calls occur in the source.
    - The mutexes are not modelled: every function is one critical section
      or a sequence of them, run here without interleaving. *)

From Stdlib Require Import ZArith Lia Ascii.
From stdpp Require Import gmap strings list fin_maps.

Local Open Scope Z_scope.

(** ** Go primitives used by both packages *)

Abbreviation Time := Z (only parsing).
Abbreviation Duration := Z (only parsing).

Definition Nanosecond : Duration := 1.
Definition Second : Duration := 1000000000 * Nanosecond.
Definition Minute : Duration := 60 * Second.

(** [t.After(u)], [t.Before(u)], [t.Add(d)]; [t.Sub(u)] is a [Duration],
    an int64, and saturates at its bounds. *)
Definition After (t u : Time) : bool := u <? t.
Definition Before (t u : Time) : bool := t <? u.
Definition Add (t : Time) (d : Duration) : Time := t + d.
Definition Sub (t u : Time) : Duration :=
  Z.max (- 2 ^ 63) (Z.min (2 ^ 63 - 1) (t - u)).

(** Two's complement wrap-around of Go's 64-bit [int]. *)
Definition wrap_int (x : Z) : Z := (x + 2 ^ 63) mod 2 ^ 64 - 2 ^ 63.

(** [strings.HasPrefix(s, prefix)] *)
Fixpoint HasPrefix (s prefix : string) {struct prefix} : bool :=
  match prefix with
  | EmptyString => true
  | String p prefix' =>
      match s with
      | EmptyString => false
      | String c s' => if Ascii.eqb c p then HasPrefix s' prefix' else false
      end
  end.

(** [s[n:]] for [n <= len(s)] *)
Fixpoint drop_string (n : nat) (s : string) : string :=
  match n, s with
  | O, _ => s
  | S n', String _ s' => drop_string n' s'
  | S _, EmptyString => EmptyString
  end.

(** [strings.TrimPrefix(s, prefix)] *)
Definition TrimPrefix (s prefix : string) : string :=
  if HasPrefix s prefix then drop_string (String.length prefix) s else s.

(** [subtle.ConstantTimeCompare(x, y)]: 1 when the two byte slices have
    equal contents, 0 otherwise. *)
Definition ConstantTimeCompare (x y : string) : Z :=
  if String.eqb x y then 1 else 0.

(** ** Package auth: the gRPC interceptor *)

Module Auth.

Definition MaxFailedAttempts : Z := 5.
Definition LockoutDuration : Duration := 15 * Minute.
Definition TokenMinLength : Z := 32.

(** The gRPC status codes that occur in this package. *)
Inductive Code := OK | Unknown | Unauthenticated | ResourceExhausted.

(** A non-nil Go [error] of this package is either a gRPC status made by
    [status.Error] or a plain error made by [fmt.Errorf]; [None] is nil. *)
Inductive error_value :=
  | StatusError (c : Code) (msg : string)
  | PlainError (msg : string).
Definition error := option error_value.

Definition status_Error (c : Code) (msg : string) : error :=
  Some (StatusError c msg).
Definition fmt_Errorf (msg : string) : error := Some (PlainError msg).

(** [status.Code(err)] and the message of an error. *)
Definition status_Code (e : error) : Code :=
  match e with
  | None => OK
  | Some (StatusError c _) => c
  | Some (PlainError _) => Unknown
  end.
Definition error_message (e : error) : string :=
  match e with
  | None => ""
  | Some (StatusError _ msg) => msg
  | Some (PlainError msg) => msg
  end.

Record attemptInfo := { count : Z; lockedUntil : Time }.

(** The zero value [&attemptInfo{}]. *)
Definition attemptInfo_zero : attemptInfo := {| count := 0; lockedUntil := 0 |}.

Record AuthInterceptor := {
  token : string;
  requireAuth : bool;
  failedAttempts : gmap string attemptInfo
}.

Definition with_failedAttempts (a : AuthInterceptor)
    (fa : gmap string attemptInfo) : AuthInterceptor :=
  {| token := token a; requireAuth := requireAuth a; failedAttempts := fa |}.

(** What [authorize] reads from the [context.Context] of a call: the peer
    (if any) and the incoming metadata (if any). *)
Record Context := {
  peer_addr : option string;
  incoming_md : option (gmap string (list string))
}.

(** [md.Get(k)] *)
Definition md_Get (md : gmap string (list string)) (k : string) : list string :=
  default [] (md !! k).

(** One pass of the [for range ticker.C] loop of [cleanupFailedAttempts]:
    the body runs once for every entry of the map and deletes the entry it
    is looking at. *)
Definition cleanupSweep (now : Time) (fa : gmap string attemptInfo)
    : gmap string attemptInfo :=
  map_fold (fun ip info acc =>
      if After now (lockedUntil info) && (count info <? MaxFailedAttempts)
      then delete ip acc
      else if After now (Add (lockedUntil info) (30 * Minute))
      then delete ip acc
      else acc) fa fa.

(** [cleanupFailedAttempts] over the ticks that have fired so far; each
    tick carries the reading of [time.Now()] of its pass. *)
Definition cleanupFailedAttempts (ticks : list Time) (a : AuthInterceptor)
    : AuthInterceptor :=
  foldl (fun a now => with_failedAttempts a (cleanupSweep now (failedAttempts a)))
        a ticks.

Definition IsAuthRequired (a : AuthInterceptor) : bool := requireAuth a.
Definition GetToken (a : AuthInterceptor) : string := token a.

Definition getClientIP (ctx : Context) : string :=
  match peer_addr ctx with
  | Some addr => addr
  | None => "unknown"
  end.

Definition isLocked (now : Time) (ip : string) (a : AuthInterceptor) : bool :=
  match failedAttempts a !! ip with
  | Some info => if Before now (lockedUntil info) then true else false
  | None => false
  end.

Definition maxRecords : Z := 10000.

(** The inline sweep of [recordFailedAttempt]: the loop deletes the entry
    it is looking at when its lock has passed. *)
Definition sweepExpired (now : Time) (fa : gmap string attemptInfo)
    : gmap string attemptInfo :=
  map_fold (fun k v acc =>
      if After now (lockedUntil v) then delete k acc else acc) fa fa.

(** [recordFailedAttempt]: [now_sweep] is the reading taken inside the
    capacity branch, [now_lock] the one taken when the lock is set. *)
Definition recordFailedAttempt (now_sweep now_lock : Time) (ip : string)
    (a : AuthInterceptor) : AuthInterceptor * bool :=
  let full := maxRecords <=? Z.of_nat (size (failedAttempts a)) in
  let fa1 := if full then sweepExpired now_sweep (failedAttempts a)
             else failedAttempts a in
  if full && (maxRecords <=? Z.of_nat (size fa1))
  then (with_failedAttempts a fa1, false)
  else
    let fa2 := match fa1 !! ip with
               | Some _ => fa1
               | None => <[ip := attemptInfo_zero]> fa1
               end in
    let info := default attemptInfo_zero (fa2 !! ip) in
    let info1 := {| count := wrap_int (count info + 1);
                    lockedUntil := lockedUntil info |} in
    if MaxFailedAttempts <=? count info1
    then (with_failedAttempts a
            (<[ip := {| count := count info1;
                        lockedUntil := Add now_lock LockoutDuration |}]> fa2),
          true)
    else (with_failedAttempts a (<[ip := info1]> fa2), false).

Definition resetFailedAttempts (ip : string) (a : AuthInterceptor)
    : AuthInterceptor :=
  with_failedAttempts a (delete ip (failedAttempts a)).

(** [authorize]: [now_check] is read by [isLocked], [now_sweep] and
    [now_lock] by [recordFailedAttempt] when it is reached. *)
Definition authorize (now_check now_sweep now_lock : Time) (ctx : Context)
    (a : AuthInterceptor) : AuthInterceptor * error :=
  let clientIP := getClientIP ctx in
  if isLocked now_check clientIP a
  then (a, status_Error ResourceExhausted "认证失败次数过多，请稍后重试")
  else
    match incoming_md ctx with
    | None =>
        let a1 := fst (recordFailedAttempt now_sweep now_lock clientIP a) in
        (a1, status_Error Unauthenticated "缺少元数据")
    | Some md =>
        match md_Get md "authorization" with
        | [] =>
            let a1 := fst (recordFailedAttempt now_sweep now_lock clientIP a) in
            (a1, status_Error Unauthenticated "缺少认证令牌")
        | value0 :: _ =>
            let tok := if HasPrefix value0 "Bearer "
                       then TrimPrefix value0 "Bearer " else value0 in
            if negb (ConstantTimeCompare tok (token a) =? 1)
            then
              let '(a1, locked) :=
                recordFailedAttempt now_sweep now_lock clientIP a in
              if locked
              then (a1, status_Error ResourceExhausted "认证失败次数过多，账户已锁定")
              else (a1, status_Error Unauthenticated "认证令牌无效")
            else (resetFailedAttempts clientIP a, None)
        end
    end.

(** *** Tokens *)

(** The payload of a signed token. *)
Record tokenClaims := { Token : string; IssuedAt : Z; ExpiresAt : Z }.

(** Go library functions that the token code calls.  They are not part of
    the repository and are taken as an interface:
    - [hex_EncodeToString], [base64_EncodeToString], [base64_DecodeString]
      ([base64.RawURLEncoding]; [None] is a decoding error);
    - [hmac_sha256 key msg], the 32-byte tag of [hmac.New(sha256.New, key)]
      after writing [msg];
    - [json_Marshal] and [json_Unmarshal] at type [tokenClaims] ([None] is
      an error);
    - [seconds_int64 d], the value of [int64(d.Seconds())], a float64
      computation. *)
Class GoLib := {
  hex_EncodeToString : string -> string;
  base64_EncodeToString : string -> string;
  base64_DecodeString : string -> option string;
  hmac_sha256 : string -> string -> string;
  json_Marshal : tokenClaims -> option string;
  json_Unmarshal : string -> option tokenClaims;
  seconds_int64 : Duration -> Z
}.

(** Seconds between Go's zero Time and the Unix epoch, and [t.Unix()]. *)
Definition unixToInternal : Z := 62135596800.
Definition Unix (t : Time) : Z := t / Second - unixToInternal.

(** [strings.SplitN(s, sep, 2)] for a one-byte separator: the text before
    the first separator and the text after it, or [s] alone without one. *)
Fixpoint SplitN2 (s : string) (sep : ascii) : list string :=
  match s with
  | EmptyString => [EmptyString]
  | String c s' =>
      if Ascii.eqb c sep then [EmptyString; s']
      else match SplitN2 s' sep with
           | [before; after] => [String c before; after]
           | _ => [s]
           end
  end.

Section Tokens.
Context `{GoLib}.

(** [GenerateToken]: [entropy] is what [rand.Read] put in the 32-byte
    buffer, [None] when it failed. *)
Definition GenerateToken (entropy : option string) : string * error :=
  match entropy with
  | None => ("", fmt_Errorf "rand.Read")
  | Some bytes => (hex_EncodeToString bytes, None)
  end.

Definition GenerateSignedToken (now : Time) (entropy : option string)
    (secretKey : string) (ttl : Duration) : string * error :=
  match GenerateToken entropy with
  | (_, Some err) => ("", Some err)
  | (raw, None) =>
      let now_unix := Unix now in
      let claims := {| Token := raw; IssuedAt := now_unix;
                       ExpiresAt := now_unix + seconds_int64 ttl |} in
      match json_Marshal claims with
      | None => ("", fmt_Errorf "json.Marshal")
      | Some payload =>
          let payloadB64 := base64_EncodeToString payload in
          let sig := base64_EncodeToString (hmac_sha256 secretKey payloadB64) in
          (payloadB64 +:+ "." +:+ sig, None)
      end
  end.

Definition ValidateSignedToken (token secretKey : string) : error :=
  match SplitN2 token "."%char with
  | [payloadB64; sigB64] =>
      let expectedSig :=
        base64_EncodeToString (hmac_sha256 secretKey payloadB64) in
      if negb (ConstantTimeCompare sigB64 expectedSig =? 1)
      then fmt_Errorf "invalid token signature"
      else
        match base64_DecodeString payloadB64 with
        | None => fmt_Errorf "invalid token payload"
        | Some payload =>
            match json_Unmarshal payload with
            | None => fmt_Errorf "invalid token claims"
            | Some claims => None
            end
        end
  | _ => fmt_Errorf "invalid token format"
  end.

(** [NewAuthInterceptor]: without a configured token a random one is
    generated; the cleanup goroutine it starts is [cleanupFailedAttempts]. *)
Definition NewAuthInterceptor (entropy : option string) (token : string)
    : AuthInterceptor :=
  let requireAuth := negb (String.eqb token "") in
  let token := if requireAuth then token else fst (GenerateToken entropy) in
  {| Auth.token := token; Auth.requireAuth := requireAuth;
     failedAttempts := ∅ |}.

End Tokens.

(** What happens to an interceptor during its life: calls pass through
    [authorize] (from [Unary] or [Stream]) and the cleanup ticker fires. *)
Inductive event :=
  | Authorize (now_check now_sweep now_lock : Time) (ctx : Context)
  | Tick (now : Time).

Definition step (a : AuthInterceptor) (e : event) : AuthInterceptor :=
  match e with
  | Authorize now_check now_sweep now_lock ctx =>
      fst (authorize now_check now_sweep now_lock ctx a)
  | Tick now => cleanupFailedAttempts [now] a
  end.

Definition run (es : list event) (a : AuthInterceptor) : AuthInterceptor :=
  foldl step a es.

(** The interceptor that [Unary] returns, applied to a call: [FullMethod]
    is [info.FullMethod] and [handler] is what [handler(ctx, req)] returns,
    a reply (nil is [None]) and an error. *)
Definition Unary {Resp : Type} (handler : option Resp * error)
    (FullMethod : string) (now_check now_sweep now_lock : Time)
    (ctx : Context) (a : AuthInterceptor)
    : AuthInterceptor * (option Resp * error) :=
  if String.eqb FullMethod "/runixo.AgentService/Authenticate"
  then (a, handler)
  else
    match authorize now_check now_sweep now_lock ctx a with
    | (a1, Some err) => (a1, (None, Some err))
    | (a1, None) => (a1, handler)
    end.

(** The interceptor that [Stream] returns, applied to a stream whose
    context is [ctx]; [handler] is what [handler(srv, ss)] returns. *)
Definition Stream (handler : error)
    (now_check now_sweep now_lock : Time) (ctx : Context)
    (a : AuthInterceptor) : AuthInterceptor * error :=
  match authorize now_check now_sweep now_lock ctx a with
  | (a1, Some err) => (a1, Some err)
  | (a1, None) => (a1, handler)
  end.

Definition ValidateToken (token : string) : bool :=
  TokenMinLength <=? Z.of_nat (String.length token).

(** *** Sessions *)

(** The field [Token] of the source is [session_Token] here, the name
    [Token] being taken by [tokenClaims]. *)
Record SessionInfo := {
  session_Token : string;
  ClientIP : string;
  CreatedAt : Time;
  LastUsed : Time
}.

(** The map holds pointers: [sessions] maps a token to the address of its
    [SessionInfo], [heap] holds the objects.  A caller that was handed an
    address reads the object through [heap]. *)
Abbreviation addr := positive (only parsing).

Record SessionManager := {
  sessions : gmap string addr;
  heap : gmap addr SessionInfo
}.

Definition NewSessionManager (h : gmap addr SessionInfo) : SessionManager :=
  {| sessions := ∅; heap := h |}.

Definition CreateSession (now : Time) (token clientIP : string)
    (sm : SessionManager) : SessionManager * addr :=
  let session := fresh (dom (heap sm)) in
  let info := {| session_Token := token; ClientIP := clientIP;
                 CreatedAt := now; LastUsed := now |} in
  ({| sessions := <[token := session]> (sessions sm);
      heap := <[session := info]> (heap sm) |}, session).

Definition touch (now : Time) (s : SessionInfo) : SessionInfo :=
  {| session_Token := session_Token s; ClientIP := ClientIP s;
     CreatedAt := CreatedAt s; LastUsed := now |}.

(** [ValidateSession] returns a pointer (nil is [None]) and an error. *)
Definition ValidateSession (now : Time) (token : string) (sm : SessionManager)
    : SessionManager * (option addr * error) :=
  match sessions sm !! token with
  | None => (sm, (None, None))
  | Some session =>
      ({| sessions := sessions sm;
          heap := alter (touch now) session (heap sm) |},
       (Some session, None))
  end.

Definition RevokeSession (token : string) (sm : SessionManager)
    : SessionManager :=
  {| sessions := delete token (sessions sm); heap := heap sm |}.

Definition RevokeAllSessions (sm : SessionManager) : SessionManager :=
  {| sessions := ∅; heap := heap sm |}.

Definition GetActiveSessions (sm : SessionManager) : Z :=
  Z.of_nat (size (sessions sm)).

Definition GetSessionInfo (token : string) (sm : SessionManager)
    : option addr :=
  sessions sm !! token.

(** The exported methods of a [SessionManager], as calls. *)
Inductive session_call :=
  | CallCreateSession (now : Time) (token clientIP : string)
  | CallValidateSession (now : Time) (token : string)
  | CallRevokeSession (token : string)
  | CallRevokeAllSessions
  | CallGetActiveSessions
  | CallGetSessionInfo (token : string).

Definition session_step (c : session_call) (sm : SessionManager)
    : SessionManager :=
  match c with
  | CallCreateSession now token clientIP =>
      fst (CreateSession now token clientIP sm)
  | CallValidateSession now token => fst (ValidateSession now token sm)
  | CallRevokeSession token => RevokeSession token sm
  | CallRevokeAllSessions => RevokeAllSessions sm
  | CallGetActiveSessions => sm
  | CallGetSessionInfo _ => sm
  end.

End Auth.

(** ** Package api: the REST middleware *)

Module Api.

Record apiAttemptInfo := {
  count : Z;
  lockedUntil : Time;
  lastAttempt : Time
}.

Definition apiAttemptInfo_zero : apiAttemptInfo :=
  {| count := 0; lockedUntil := 0; lastAttempt := 0 |}.

(** The [collector] field plays no part in authentication and is left out. *)
Record Server := {
  token : string;
  version : string;
  failedAttempts : gmap string apiAttemptInfo
}.

Definition with_failedAttempts (s : Server)
    (fa : gmap string apiAttemptInfo) : Server :=
  {| token := token s; version := version s; failedAttempts := fa |}.

(** [NewServer]; the cleanup goroutine it starts is [cleanupLoop]. *)
Definition NewServer (token version : string) : Server :=
  {| Api.token := token; Api.version := version; failedAttempts := ∅ |}.

(** One pass of the loop of [cleanupLoop]. *)
Definition cleanupSweep (now : Time) (fa : gmap string apiAttemptInfo)
    : gmap string apiAttemptInfo :=
  map_fold (fun ip info acc =>
      if After now (lockedUntil info)
         && (30 * Minute <? Sub now (lastAttempt info))
      then delete ip acc
      else acc) fa fa.

Definition cleanupLoop (ticks : list Time) (s : Server) : Server :=
  foldl (fun s now => with_failedAttempts s (cleanupSweep now (failedAttempts s)))
        s ticks.

(** The JSON body of a reply and what a handler has put in its
    [http.ResponseWriter]: headers, status code, body. *)
Record Response := { Success : bool; Error : string }.

Record ResponseWriter := {
  Header : gmap string string;
  StatusCode : option Z;
  Body : option Response
}.

Definition Header_Set (k v : string) (w : ResponseWriter) : ResponseWriter :=
  {| Header := <[k := v]> (Header w); StatusCode := StatusCode w;
     Body := Body w |}.

Definition StatusTooManyRequests : Z := 429.
Definition StatusUnauthorized : Z := 401.

(** [recordAPIFailedAttempt]: [now_attempt] stamps [lastAttempt],
    [now_lock] is the reading taken when the lock is set. *)
Definition recordAPIFailedAttempt (now_attempt now_lock : Time) (ip : string)
    (s : Server) : Server :=
  let fa1 := match failedAttempts s !! ip with
             | Some _ => failedAttempts s
             | None => <[ip := apiAttemptInfo_zero]> (failedAttempts s)
             end in
  let info := default apiAttemptInfo_zero (fa1 !! ip) in
  let info1 := {| count := wrap_int (count info + 1);
                  lockedUntil := lockedUntil info;
                  lastAttempt := now_attempt |} in
  if 5 <=? count info1
  then with_failedAttempts s
         (<[ip := {| count := count info1;
                     lockedUntil := Add now_lock (15 * Minute);
                     lastAttempt := lastAttempt info1 |}]> fa1)
  else with_failedAttempts s (<[ip := info1]> fa1).

Definition jsonError (message : string) (code : Z) (w : ResponseWriter)
    : ResponseWriter :=
  let w1 := Header_Set "Content-Type" "application/json" w in
  {| Header := Header w1; StatusCode := Some code;
     Body := Some {| Success := false; Error := message |} |}.

(** An [*http.Request] as the middleware reads it; [r.Header.Get] gives
    the first value of a header, or the empty string. *)
Record Request := {
  RemoteAddr : string;
  RequestHeader : gmap string (list string)
}.

Definition Header_Get (r : Request) (k : string) : string :=
  match RequestHeader r !! k with
  | Some (v :: _) => v
  | _ => ""
  end.

(** [authMiddleware(next)] applied to a writer and a request; the handler
    [next] writes its reply. *)
Definition authMiddleware (next : ResponseWriter -> Request -> ResponseWriter)
    (now_check now_attempt now_lock : Time)
    (w : ResponseWriter) (r : Request) (s : Server)
    : Server * ResponseWriter :=
  let ip := RemoteAddr r in
  let locked := match failedAttempts s !! ip with
                | Some info => Before now_check (lockedUntil info)
                | None => false
                end in
  if locked
  then (s, jsonError "Too many failed attempts" StatusTooManyRequests
             (Header_Set "Retry-After" "900" w))
  else
    let auth := Header_Get r "Authorization" in
    if String.eqb auth ""
    then (recordAPIFailedAttempt now_attempt now_lock ip s,
          jsonError "Missing authorization header" StatusUnauthorized w)
    else
      let tok := TrimPrefix auth "Bearer " in
      if negb (ConstantTimeCompare tok (token s) =? 1)
      then (recordAPIFailedAttempt now_attempt now_lock ip s,
            jsonError "Invalid token" StatusUnauthorized w)
      else (with_failedAttempts s (delete ip (failedAttempts s)), next w r).

(** [securityHeaders(next)] applied to a writer and a request; [next] may
    be a plain handler or one that also threads the server. *)
Definition securityHeaders {X : Type} (next : ResponseWriter -> Request -> X)
    (w : ResponseWriter) (r : Request) : X :=
  next (Header_Set "X-Frame-Options" "DENY"
          (Header_Set "X-Content-Type-Options" "nosniff" w)) r.

(** What is registered under a pattern of the mux: a handler that is given
    the clock readings of its call and threads the server. *)
Definition Route : Type :=
  Time -> Time -> Time -> ResponseWriter -> Request -> Server
  -> Server * ResponseWriter.

(** A handler that does not touch the table of failed attempts. *)
Definition open_route (h : ResponseWriter -> Request -> ResponseWriter)
    : Route :=
  fun _ _ _ w r s => (s, h w r).

(** [RegisterRoutes]: the table of patterns it fills by its five calls of
    [mux.HandleFunc].  The five handlers call the collector, which is not
    part of this package, and are taken as given. *)
Definition RegisterRoutes
    (handleHealth handleVersion handleSystemInfo handleMetrics handleProcesses
       : ResponseWriter -> Request -> ResponseWriter)
    : gmap string Route :=
  let guarded (h : ResponseWriter -> Request -> ResponseWriter) : Route :=
    fun now_check now_attempt now_lock =>
      securityHeaders (authMiddleware h now_check now_attempt now_lock) in
  <["/api/processes" := guarded handleProcesses]>
    (<["/api/metrics" := guarded handleMetrics]>
       (<["/api/system" := guarded handleSystemInfo]>
          (<["/api/version" := open_route (securityHeaders handleVersion)]>
             (<["/api/health" := open_route (securityHeaders handleHealth)]>
                ∅)))).

End Api.

(** ** Vocabulary of the statements *)

(** [strings.IndexByte(s, c) >= 0] *)
Fixpoint has_byte (c : ascii) (s : string) : bool :=
  match s with
  | EmptyString => false
  | String d s' => if Ascii.eqb d c then true else has_byte c s'
  end.

(** [t] is [s] with one character replaced by another one. *)
Definition one_char_changed (s t : string) : Prop :=
  exists pre c d post,
    c <> d /\ s = pre +:+ String c post /\ t = pre +:+ String d post.

Definition has_bearer_prefix (v : string) : Prop :=
  exists rest, v = "Bearer " +:+ rest.

(** The first value of the authorization field, if the call has one. *)
Definition presented (ctx : Auth.Context) : option string :=
  match Auth.incoming_md ctx with
  | Some md =>
      match md !! "authorization" with
      | Some (v :: _) => Some v
      | _ => None
      end
  | None => None
  end.

(** That value is the secret, bare or behind the prefix. *)
Definition presents (secret : string) (ctx : Auth.Context) : Prop :=
  exists v, presented ctx = Some v /\
    (v = "Bearer " +:+ secret \/ (v = secret /\ ~ has_bearer_prefix v)).

(** The record that a counted failure leaves for [ip]. *)
Definition bumped (now_lock : Time) (old : option Auth.attemptInfo) : Auth.attemptInfo :=
  let info := default Auth.attemptInfo_zero old in
  let c := wrap_int (Auth.count info + 1) in
  {| Auth.count := c;
     Auth.lockedUntil := if Auth.MaxFailedAttempts <=? c
                         then Add now_lock Auth.LockoutDuration
                         else Auth.lockedUntil info |}.




(** The lock test at the head of [authMiddleware]. *)
Definition api_locked (now : Time) (ip : string) (s : Api.Server) : bool :=
  match Api.failedAttempts s !! ip with
  | Some info => Before now (Api.lockedUntil info)
  | None => false
  end.

(** ** Sample data *)

Definition noon : Time := 63900000000 * Second.
Definition secret : string := "correct-token".
Definition peer : string := "203.0.113.7:51000".
Definition gateway (fa : gmap string Auth.attemptInfo) : Auth.AuthInterceptor :=
  {| Auth.token := secret; Auth.requireAuth := true; Auth.failedAttempts := fa |}.
Definition call_with (v : string) : Auth.Context :=
  {| Auth.peer_addr := Some peer;
     Auth.incoming_md := Some {[ "authorization" := [v] ]} |}.
Definition call_without : Auth.Context :=
  {| Auth.peer_addr := Some peer; Auth.incoming_md := Some ∅ |}.
Definition four_strikes : Auth.AuthInterceptor :=
  gateway {[ peer := {| Auth.count := 4; Auth.lockedUntil := 0 |} ]}.

Definition five_strikes : Auth.AuthInterceptor :=
  gateway {[ peer := {| Auth.count := 5; Auth.lockedUntil := noon + 15 * Minute |} ]}.

Definition wrong_call : Auth.event :=
  Auth.Authorize noon noon noon (call_with "wrong").

(** A crowd of distinct peers: the address of the [i]-th ends in [i]
    marks. *)
Fixpoint marks (i : nat) : string :=
  match i with
  | O => ""
  | S i' => String "'" (marks i')
  end.

Definition crowd_peer (i : nat) : string := "198.51.100.1:" +:+ marks i.

(** The records of the first [n] peers of the crowd, each locked until an
    hour past [noon]. *)
Fixpoint crowd_table (n : nat) : gmap string Auth.attemptInfo :=
  match n with
  | O => ∅
  | S n' => <[crowd_peer n' := {| Auth.count := 5;
                                  Auth.lockedUntil := noon + 60 * Minute |}]>
              (crowd_table n')
  end.

(** A table at its capacity with every lock running. *)
Definition crowd : Auth.AuthInterceptor :=
  gateway (crowd_table (Z.to_nat Auth.maxRecords)).


Definition server (fa : gmap string Api.apiAttemptInfo) : Api.Server :=
  {| Api.token := secret; Api.version := "1.0.0"; Api.failedAttempts := fa |}.
Definition request_with (v : string) : Api.Request :=
  {| Api.RemoteAddr := peer;
     Api.RequestHeader := {[ "Authorization" := [v] ]} |}.
Definition request_without : Api.Request :=
  {| Api.RemoteAddr := peer; Api.RequestHeader := ∅ |}.
Definition blank_writer : Api.ResponseWriter :=
  {| Api.Header := ∅; Api.StatusCode := None; Api.Body := None |}.
Definition handler (w : Api.ResponseWriter) (r : Api.Request) : Api.ResponseWriter :=
  {| Api.Header := Api.Header w; Api.StatusCode := Some 200;
     Api.Body := Some {| Api.Success := true; Api.Error := "" |} |}.
Definition locked_server : Api.Server :=
  server {[ peer := {| Api.count := 5; Api.lockedUntil := noon + 15 * Minute;
                       Api.lastAttempt := noon |} ]}.

(** The REST server with the crowd in its table: 10,000 addresses, each
    locked at [noon] until an hour later. *)
Definition crowded_server : Api.Server :=
  server ((fun v => {| Api.count := Auth.count v;
                       Api.lockedUntil := Auth.lockedUntil v;
                       Api.lastAttempt := noon |})
          <$> crowd_table (Z.to_nat Auth.maxRecords)).

(** A degenerate instance of the library interface, to run the token
    functions on sample data: the encodings are the identity and the tag
    is the key followed by the message. *)
Definition plain_lib : Auth.GoLib := {|
  Auth.hex_EncodeToString := fun s => s;
  Auth.base64_EncodeToString := fun s => s;
  Auth.base64_DecodeString := fun s => Some s;
  Auth.hmac_sha256 := fun key msg => key +:+ msg;
  Auth.json_Marshal := fun c => Some (Auth.Token c);
  Auth.json_Unmarshal := fun p =>
    Some {| Auth.Token := p; Auth.IssuedAt := 0; Auth.ExpiresAt := 0 |};
  Auth.seconds_int64 := fun d => d / Second
|}.

(** ** Vocabulary and sample data of the further properties *)



(** Every record counts at least one failure and at most [n], and only a
    record that has reached the threshold carries a lock time. *)
Definition records_wellformed (n : Z) (fa : gmap string Auth.attemptInfo) : Prop :=
  forall ip info, fa !! ip = Some info ->
    1 <= Auth.count info <= n
    /\ (Auth.lockedUntil info <> 0 -> Auth.MaxFailedAttempts <= Auth.count info).

(** What happens to a REST server during its life: requests pass through
    [authMiddleware] and the ticker of [cleanupLoop] fires. *)
Inductive api_event :=
  | ApiRequest (now_check now_attempt now_lock : Time)
               (w : Api.ResponseWriter) (r : Api.Request)
  | ApiTick (now : Time).

Definition api_step (next : Api.ResponseWriter -> Api.Request -> Api.ResponseWriter)
    (s : Api.Server) (e : api_event) : Api.Server :=
  match e with
  | ApiRequest nc na nl w r => (Api.authMiddleware next nc na nl w r s).1
  | ApiTick now => Api.cleanupLoop [now] s
  end.

Definition api_run (next : Api.ResponseWriter -> Api.Request -> Api.ResponseWriter)
    (es : list api_event) (s : Api.Server) : Api.Server :=
  foldl (api_step next) s es.

(** A request that comes from [ip], is read by a running clock, and does
    not carry the secret. *)
Definition api_fails_from (secret ip : string) (e : api_event) : Prop :=
  match e with
  | ApiRequest nc _ _ _ r =>
      Api.RemoteAddr r = ip /\ 0 <= nc /\
      (Api.Header_Get r "Authorization" = ""
       \/ TrimPrefix (Api.Header_Get r "Authorization") "Bearer " <> secret)
  | ApiTick _ => False
  end.

(** The reading that stamps [lastAttempt] when the request fails. *)
Definition api_attempt_time (e : api_event) : Time :=
  match e with
  | ApiRequest _ na _ _ _ => na
  | ApiTick now => now
  end.

(** Cleanup passes only, none of them more than thirty minutes after
    [last]. *)
Definition api_passes_by (last : Time) (es : list api_event) : Prop :=
  Forall (fun e => match e with
                   | ApiTick now => now - last <= 30 * Minute
                   | ApiRequest _ _ _ _ _ => False
                   end) es.

(** [n] failures of [ip] are on record in the REST table, the last of
    them at [last], and none has locked it. *)
Definition api_strikes (ip : string) (n : Z) (last : Time) (s : Api.Server) : Prop :=
  if decide (n = 0) then Api.failedAttempts s !! ip = None
  else Api.failedAttempts s !! ip
       = Some {| Api.count := n; Api.lockedUntil := 0; Api.lastAttempt := last |}.

(** A writer after [securityHeaders] has set its two headers. *)
Definition hardened (w : Api.ResponseWriter) : Api.ResponseWriter :=
  Api.Header_Set "X-Frame-Options" "DENY"
    (Api.Header_Set "X-Content-Type-Options" "nosniff" w).

(** The pattern [p] is registered, and its handler is [h] behind the lock
    and credential check. *)
Definition guarded_by_auth (routes : gmap string Api.Route) (p : string)
    (h : Api.ResponseWriter -> Api.Request -> Api.ResponseWriter) : Prop :=
  exists route, routes !! p = Some route /\
    forall nc na nl w r s,
      route nc na nl w r s = Api.authMiddleware h nc na nl (hardened w) r s.

(** The pattern [p] is registered, and its handler is [h] with no check:
    the server is not read and not changed. *)
Definition open_to_all (routes : gmap string Api.Route) (p : string)
    (h : Api.ResponseWriter -> Api.Request -> Api.ResponseWriter) : Prop :=
  exists route, routes !! p = Some route /\
    forall nc na nl w r s, route nc na nl w r s = (s, h (hardened w) r).

(** A session manager after a sequence of calls of its methods. *)
Definition session_run (cs : list Auth.session_call) (sm : Auth.SessionManager)
    : Auth.SessionManager :=
  foldl (fun sm c => Auth.session_step c sm) sm cs.

(** Every token of the map points to an object of the heap that holds
    that token. *)
Definition sessions_wellformed (sm : Auth.SessionManager) : Prop :=
  forall tok p, Auth.sessions sm !! tok = Some p ->
    exists s, Auth.heap sm !! p = Some s /\ Auth.session_Token s = tok.

(** Lower-case hexadecimal, two digits for a byte, and its decoder. *)
Definition hex_digit (n : N) : ascii :=
  ascii_of_N (if (n <? 10)%N then 48 + n else 87 + n).

Fixpoint hex_encode (s : string) : string :=
  match s with
  | EmptyString => EmptyString
  | String c s' =>
      String (hex_digit (N_of_ascii c / 16))
        (String (hex_digit (N_of_ascii c mod 16)) (hex_encode s'))
  end.

Definition hex_value (c : ascii) : option N :=
  let n := N_of_ascii c in
  if ((48 <=? n) && (n <=? 57))%N then Some (n - 48)%N
  else if ((97 <=? n) && (n <=? 102))%N then Some (n - 87)%N
  else if ((65 <=? n) && (n <=? 70))%N then Some (n - 55)%N
  else None.

Fixpoint hex_decode (s : string) : option string :=
  match s with
  | EmptyString => Some EmptyString
  | String a (String b s') =>
      match hex_value a, hex_value b, hex_decode s' with
      | Some x, Some y, Some t => Some (String (ascii_of_N (16 * x + y)) t)
      | _, _, _ => None
      end
  | String _ EmptyString => None
  end.

(** An instance of the library interface whose codecs obey the laws of the
    real ones: [hex.EncodeToString] itself, the same encoding in place of
    base64, a tag that is the key followed by the message, and a JSON codec
    that keeps the token field. *)
Definition hex_lib : Auth.GoLib := {|
  Auth.hex_EncodeToString := hex_encode;
  Auth.base64_EncodeToString := hex_encode;
  Auth.base64_DecodeString := hex_decode;
  Auth.hmac_sha256 := fun key msg => key +:+ msg;
  Auth.json_Marshal := fun c => Some (Auth.Token c);
  Auth.json_Unmarshal := fun p =>
    Some {| Auth.Token := p; Auth.IssuedAt := 0; Auth.ExpiresAt := 0 |};
  Auth.seconds_int64 := fun d => d / Second
|}.


Definition wrong_request : api_event :=
  ApiRequest noon noon noon blank_writer (request_with "wrong").

(** A registry with one session, made at [noon]. *)
Definition one_session : Auth.SessionManager :=
  (Auth.CreateSession noon "6f1d" "203.0.113.7" (Auth.NewSessionManager ∅)).1.

(** * Properties *)

(** Linear arithmetic on clock readings and durations. *)
Ltac clock_arith :=
  unfold Sub, Add, Minute, Second, Nanosecond in *; lia.

(** ** Loops that delete from the map they range over *)

Section DeleteLoop.
Context {A : Type}.
Variable f : string -> A -> gmap string A -> gmap string A.
Variable doomed : string -> A -> bool.
Hypothesis f_spec : forall k v acc,
  f k v acc = if doomed k v then delete k acc else acc.

Lemma delete_loop_lookup_gen (m acc0 : gmap string A) (i : string) :
  map_fold f acc0 m !! i =
    match m !! i with
    | Some v => if doomed i v then None else acc0 !! i
    | None => acc0 !! i
    end.
Proof.
  revert i.
  apply (map_fold_weak_ind
           (fun r m => forall i, r !! i =
              match m !! i with
              | Some v => if doomed i v then None else acc0 !! i
              | None => acc0 !! i
              end)).
  - intros i. by rewrite lookup_empty.
  - intros k x m' r Hk IH i. rewrite f_spec.
    destruct (decide (k = i)) as [->|Hne].
    + rewrite lookup_insert_eq. destruct (doomed i x).
      * by rewrite lookup_delete_eq.
      * rewrite IH, Hk. done.
    + rewrite lookup_insert_ne by done.
      destruct (doomed k x); [rewrite lookup_delete_ne by done|]; apply IH.
Qed.

Lemma delete_loop_lookup (m : gmap string A) (i : string) :
  map_fold f m m !! i =
    match m !! i with
    | Some v => if doomed i v then None else Some v
    | None => None
    end.
Proof.
  rewrite delete_loop_lookup_gen. destruct (m !! i) eqn:E; by rewrite ?E.
Qed.

Lemma delete_loop_subseteq (m : gmap string A) : map_fold f m m ⊆ m.
Proof.
  apply map_subseteq_spec. intros i x. rewrite delete_loop_lookup.
  destruct (m !! i) as [v|]; [destruct (doomed i v)|]; congruence.
Qed.

Lemma delete_loop_size (m : gmap string A) :
  (size (map_fold f m m) <= size m)%nat.
Proof. apply map_subseteq_size, delete_loop_subseteq. Qed.

Lemma delete_loop_full (m : gmap string A) :
  (size m <= size (map_fold f m m))%nat -> map_fold f m m = m.
Proof. apply map_subseteq_size_eq, delete_loop_subseteq. Qed.
End DeleteLoop.

(** ** Strings *)

Lemma HasPrefix_app p r : HasPrefix (p +:+ r) p = true.
Proof. induction p as [|c p IH]; simpl; [done|]. by rewrite Ascii.eqb_refl. Qed.

Lemma HasPrefix_inv s p : HasPrefix s p = true -> exists r, s = p +:+ r.
Proof.
  revert s. induction p as [|c p IH]; intros s; simpl.
  - by exists s.
  - destruct s as [|d s]; [done|].
    destruct (Ascii.eqb d c) eqn:E; [|done].
    apply Ascii.eqb_eq in E as ->. intros [r ->]%IH. by exists r.
Qed.

Lemma drop_string_app p r : drop_string (String.length p) (p +:+ r) = r.
Proof. induction p as [|c p IH]; simpl; [by destruct r|done]. Qed.

Lemma TrimPrefix_app p r : TrimPrefix (p +:+ r) p = r.
Proof. unfold TrimPrefix. by rewrite HasPrefix_app, drop_string_app. Qed.

Lemma TrimPrefix_other s p : HasPrefix s p = false -> TrimPrefix s p = s.
Proof. unfold TrimPrefix. by intros ->. Qed.

Lemma string_length_append (s t : string) :
  String.length (s +:+ t) = (String.length s + String.length t)%nat.
Proof. induction s as [|c s IH]; simpl; [done|]. by rewrite IH. Qed.

Lemma append_nonempty_neq (p s : string) : p <> ""%string -> p +:+ s <> s.
Proof.
  intros Hp Heq. apply (f_equal String.length) in Heq.
  rewrite string_length_append in Heq. destruct p; [done|]. simpl in Heq. lia.
Qed.

Lemma string_append_assoc (s t u : string) : (s +:+ t) +:+ u = s +:+ (t +:+ u).
Proof.
  induction s as [|c s IH]; [done|].
  change (String c ((s +:+ t) +:+ u) = String c (s +:+ (t +:+ u))).
  by rewrite IH.
Qed.

Lemma ConstantTimeCompare_eq x y : (ConstantTimeCompare x y =? 1) = true <-> x = y.
Proof.
  unfold ConstantTimeCompare. destruct (String.eqb x y) eqn:E.
  - apply String.eqb_eq in E. done.
  - apply String.eqb_neq in E. done.
Qed.

Lemma ConstantTimeCompare_neq x y : (ConstantTimeCompare x y =? 1) = false <-> x <> y.
Proof.
  rewrite <- ConstantTimeCompare_eq. destruct (ConstantTimeCompare x y =? 1); split; congruence.
Qed.

(** ** The credential of a call, in the words of the specification *)

Lemma stripped_matches v secret :
  (if HasPrefix v "Bearer " then TrimPrefix v "Bearer " else v) = secret <->
  (v = "Bearer " +:+ secret \/ (v = secret /\ ~ has_bearer_prefix v)).
Proof.
  destruct (HasPrefix v "Bearer ") eqn:E.
  - apply HasPrefix_inv in E as [r ->]. rewrite TrimPrefix_app. split.
    + intros ->. by left.
    + intros [Heq|[_ Hno]].
      * by simplify_eq.
      * destruct Hno. by exists r.
  - split.
    + intros ->. right. split; [done|]. intros [r ->].
      by rewrite HasPrefix_app in E.
    + intros [->|[-> _]]; [|done]. by rewrite HasPrefix_app in E.
Qed.

Lemma authorize_unlocked nc ns nl ctx a :
  Auth.isLocked nc (Auth.getClientIP ctx) a = false ->
  let rec := Auth.recordFailedAttempt ns nl (Auth.getClientIP ctx) a in
  (presents (Auth.token a) ctx ->
     Auth.authorize nc ns nl ctx a =
       (Auth.resetFailedAttempts (Auth.getClientIP ctx) a, None)) /\
  (~ presents (Auth.token a) ctx ->
     exists msg,
       Auth.authorize nc ns nl ctx a =
         (rec.1,
          Auth.status_Error
            (if bool_decide (is_Some (presented ctx)) && rec.2
             then Auth.ResourceExhausted else Auth.Unauthenticated) msg)).
Proof.
  intros Hun rec. unfold Auth.authorize, presents, presented. cbv zeta.
  rewrite Hun.
  destruct (Auth.incoming_md ctx) as [md|] eqn:Emd.
  2:{ split; [intros (?&?&_); congruence|]. intros _. by eexists. }
  unfold Auth.md_Get.
  destruct (md !! "authorization") as [[|v vs]|] eqn:Ev; simpl.
  1,3: split; [intros (?&?&_); congruence|]; intros _; by eexists.
  pose proof (stripped_matches v (Auth.token a)) as Hs.
  destruct (ConstantTimeCompare _ (Auth.token a) =? 1) eqn:Ec; simpl.
  - apply ConstantTimeCompare_eq in Ec. split; [done|].
    intros Hno. destruct Hno. exists v. split; [done|]. by apply Hs.
  - apply ConstantTimeCompare_neq in Ec. split.
    + intros (v'&?&Hv). simplify_eq. by apply Hs in Hv.
    + intros _. subst rec.
      destruct (Auth.recordFailedAttempt _ _ _ _) as [a1 []]; simpl; by eexists.
Qed.

(** ** The table of failed attempts *)

Lemma with_failedAttempts_id a :
  Auth.with_failedAttempts a (Auth.failedAttempts a) = a.
Proof. by destruct a. Qed.

Lemma lookup_sweepExpired now (fa : gmap string Auth.attemptInfo) k :
  Auth.sweepExpired now fa !! k =
    match fa !! k with
    | Some v => if After now (Auth.lockedUntil v) then None else Some v
    | None => None
    end.
Proof.
  unfold Auth.sweepExpired.
  apply (delete_loop_lookup _ (fun _ v => After now (Auth.lockedUntil v))).
  done.
Qed.

Lemma lookup_cleanupSweep now (fa : gmap string Auth.attemptInfo) k :
  Auth.cleanupSweep now fa !! k =
    match fa !! k with
    | Some v =>
        if After now (Auth.lockedUntil v) && (Auth.count v <? Auth.MaxFailedAttempts)
           || After now (Add (Auth.lockedUntil v) (30 * Minute))
        then None else Some v
    | None => None
    end.
Proof.
  unfold Auth.cleanupSweep.
  apply (delete_loop_lookup _ (fun _ v =>
           After now (Auth.lockedUntil v) && (Auth.count v <? Auth.MaxFailedAttempts)
           || After now (Add (Auth.lockedUntil v) (30 * Minute)))).
  intros k' v acc.
  destruct (After now (Auth.lockedUntil v) && (Auth.count v <? Auth.MaxFailedAttempts)); simpl; [done|].
  by destruct (After now _).
Qed.

Lemma recordFailedAttempt_counted now_sweep now_lock ip a fa1 :
  fa1 = (if Auth.maxRecords <=? Z.of_nat (size (Auth.failedAttempts a))
         then Auth.sweepExpired now_sweep (Auth.failedAttempts a)
         else Auth.failedAttempts a) ->
  (Auth.maxRecords <=? Z.of_nat (size (Auth.failedAttempts a)))
    && (Auth.maxRecords <=? Z.of_nat (size fa1)) = false ->
  Auth.recordFailedAttempt now_sweep now_lock ip a =
    (Auth.with_failedAttempts a (<[ip := bumped now_lock (fa1 !! ip)]> fa1),
     Auth.MaxFailedAttempts <=? Auth.count (bumped now_lock (fa1 !! ip))).
Proof.
  intros Hfa Hgo. unfold Auth.recordFailedAttempt. cbv zeta.
  rewrite <- Hfa, Hgo. unfold bumped. destruct (fa1 !! ip) as [info|] eqn:E; simpl.
  - rewrite E. simpl. by destruct (Auth.MaxFailedAttempts <=? _).
  - rewrite lookup_insert_eq. simpl.
    change (Auth.MaxFailedAttempts <=? wrap_int (0 + 1)) with false.
    by rewrite insert_insert_eq.
Qed.

Lemma recordFailedAttempt_below now_sweep now_lock ip a :
  Z.of_nat (size (Auth.failedAttempts a)) < Auth.maxRecords ->
  Auth.recordFailedAttempt now_sweep now_lock ip a =
    (Auth.with_failedAttempts a
       (<[ip := bumped now_lock (Auth.failedAttempts a !! ip)]> (Auth.failedAttempts a)),
     Auth.MaxFailedAttempts <=? Auth.count (bumped now_lock (Auth.failedAttempts a !! ip))).
Proof.
  intros Hlt.
  assert (Hf : (Auth.maxRecords <=? Z.of_nat (size (Auth.failedAttempts a))) = false)
    by (apply Z.leb_gt; lia).
  rewrite (recordFailedAttempt_counted _ _ _ _ (Auth.failedAttempts a)); [done| |].
  - by rewrite Hf.
  - by rewrite Hf.
Qed.

Lemma recordFailedAttempt_dropped now_sweep now_lock ip a :
  Auth.maxRecords <= Z.of_nat (size (Auth.failedAttempts a)) ->
  Auth.maxRecords <= Z.of_nat (size (Auth.sweepExpired now_sweep (Auth.failedAttempts a))) ->
  Auth.recordFailedAttempt now_sweep now_lock ip a =
    (Auth.with_failedAttempts a (Auth.sweepExpired now_sweep (Auth.failedAttempts a)), false).
Proof.
  intros H1 H2. unfold Auth.recordFailedAttempt.
  apply Z.leb_le in H1. rewrite H1. apply Z.leb_le in H2. by rewrite H2.
Qed.

Lemma sweepExpired_size now (fa : gmap string Auth.attemptInfo) :
  (size (Auth.sweepExpired now fa) <= size fa)%nat.
Proof.
  apply (delete_loop_size _ (fun _ v => After now (Auth.lockedUntil v))). done.
Qed.

Lemma recordFailedAttempt_size now_sweep now_lock ip a :
  Z.of_nat (size (Auth.failedAttempts (Auth.recordFailedAttempt now_sweep now_lock ip a).1))
    <= Z.max Auth.maxRecords (Z.of_nat (size (Auth.failedAttempts a))).
Proof.
  pose proof (sweepExpired_size now_sweep (Auth.failedAttempts a)) as Hs.
  set (fa1 := if Auth.maxRecords <=? Z.of_nat (size (Auth.failedAttempts a))
         then Auth.sweepExpired now_sweep (Auth.failedAttempts a)
         else Auth.failedAttempts a).
  destruct ((Auth.maxRecords <=? Z.of_nat (size (Auth.failedAttempts a)))
    && (Auth.maxRecords <=? Z.of_nat (size fa1))) eqn:Hgo.
  - apply andb_true_iff in Hgo as [H1 H2]. apply Z.leb_le in H1.
    subst fa1. rewrite (proj2 (Z.leb_le _ _) H1) in H2. apply Z.leb_le in H2.
    rewrite recordFailedAttempt_dropped by done. simpl. lia.
  - rewrite (recordFailedAttempt_counted _ _ _ _ fa1) by done. simpl.
    assert (Z.of_nat (size fa1) < Auth.maxRecords).
    { subst fa1. destruct (Auth.maxRecords <=? Z.of_nat (size (Auth.failedAttempts a))) eqn:E; simpl in Hgo.
      - apply Z.leb_gt in Hgo. lia.
      - apply Z.leb_gt in E. lia. }
    pose proof (map_size_insert ip (bumped now_lock (fa1 !! ip)) fa1) as Hi.
    destruct (fa1 !! ip); simpl in Hi; lia.
Qed.

Lemma cleanupSweep_size now (fa : gmap string Auth.attemptInfo) :
  (size (Auth.cleanupSweep now fa) <= size fa)%nat.
Proof.
  apply map_subseteq_size, map_subseteq_spec. intros i x.
  rewrite lookup_cleanupSweep. destruct (fa !! i) as [v|]; [|done].
  destruct (_ || _); congruence.
Qed.

Lemma authorize_size nc ns nl ctx a :
  Z.of_nat (size (Auth.failedAttempts (Auth.authorize nc ns nl ctx a).1))
    <= Z.max Auth.maxRecords (Z.of_nat (size (Auth.failedAttempts a))).
Proof.
  pose proof (recordFailedAttempt_size ns nl (Auth.getClientIP ctx) a) as Hr.
  unfold Auth.authorize. cbv zeta.
  destruct (Auth.isLocked _ _ _); cbn [fst]; [lia|].
  destruct (Auth.incoming_md ctx) as [md|]; cbn [fst]; [|done].
  destruct (Auth.md_Get md "authorization") as [|v vs]; cbn [fst]; [done|].
  destruct (negb _).
  - destruct (Auth.recordFailedAttempt _ _ _ _) as [a1 []]; cbn [fst] in *; done.
  - cbn [fst Auth.resetFailedAttempts Auth.failedAttempts Auth.with_failedAttempts].
    pose proof (map_size_delete (Auth.getClientIP ctx) (Auth.failedAttempts a)) as Hd.
    destruct (Auth.failedAttempts a !! _); simpl in Hd; lia.
Qed.

Lemma step_size a e :
  Z.of_nat (size (Auth.failedAttempts a)) <= Auth.maxRecords ->
  Z.of_nat (size (Auth.failedAttempts (Auth.step a e))) <= Auth.maxRecords.
Proof.
  intros Ha. destruct e as [nc ns nl ctx|now]; simpl.
  - pose proof (authorize_size nc ns nl ctx a). lia.
  - pose proof (cleanupSweep_size now (Auth.failedAttempts a)). lia.
Qed.

Lemma run_size es a :
  Z.of_nat (size (Auth.failedAttempts a)) <= Auth.maxRecords ->
  Z.of_nat (size (Auth.failedAttempts (Auth.run es a))) <= Auth.maxRecords.
Proof.
  revert a. induction es as [|e es IH]; intros a Ha; [done|].
  apply IH, step_size, Ha.
Qed.

Lemma api_recordAPIFailedAttempt now_attempt now_lock ip s :
  let info := default Api.apiAttemptInfo_zero (Api.failedAttempts s !! ip) in
  let c := wrap_int (Api.count info + 1) in
  Api.recordAPIFailedAttempt now_attempt now_lock ip s =
    Api.with_failedAttempts s
      (<[ip := {| Api.count := c;
                  Api.lockedUntil := if 5 <=? c then Add now_lock (15 * Minute)
                                     else Api.lockedUntil info;
                  Api.lastAttempt := now_attempt |}]> (Api.failedAttempts s)).
Proof.
  unfold Api.recordAPIFailedAttempt.
  destruct (Api.failedAttempts s !! ip) as [info|] eqn:E; cbn zeta.
  - rewrite E. cbn [default Api.count Api.lockedUntil Api.lastAttempt].
    by destruct (5 <=? _).
  - rewrite lookup_insert_eq.
    cbn [default Api.count Api.lockedUntil Api.lastAttempt Api.apiAttemptInfo_zero].
    destruct (5 <=? _); by rewrite insert_insert_eq.
Qed.

(** C5, amended.  The table of the interceptor never holds more than
    10,000 addresses, whatever calls and cleanup ticks it has seen.
    Called with the table at that size, [recordFailedAttempt] first
    deletes the entries whose lock has passed; if the table is still full
    the failure is dropped: the interceptor is unchanged and the result is
    false.  If the sweep made room the failure is counted against the
    swept table.  The table of the REST server has no such limit:
    [recordAPIFailedAttempt] always leaves a record for the address,
    deletes no record, and adds one to the size of the table when the
    address is new. *)
Theorem tracker_capacity :
  (forall (L : Auth.GoLib) entropy tok es,
      Z.of_nat (size (Auth.failedAttempts
                        (Auth.run es (Auth.NewAuthInterceptor entropy tok))))
        <= Auth.maxRecords)
  /\ (forall now_sweep now_lock ip a,
        Z.of_nat (size (Auth.failedAttempts a)) = Auth.maxRecords ->
        let swept := Auth.sweepExpired now_sweep (Auth.failedAttempts a) in
        (forall k, swept !! k =
            match Auth.failedAttempts a !! k with
            | Some v => if Auth.lockedUntil v <? now_sweep then None else Some v
            | None => None
            end)
        /\ (Auth.maxRecords <= Z.of_nat (size swept) ->
            Auth.recordFailedAttempt now_sweep now_lock ip a = (a, false))
        /\ (Z.of_nat (size swept) < Auth.maxRecords ->
            Auth.recordFailedAttempt now_sweep now_lock ip a =
              Auth.recordFailedAttempt now_sweep now_lock ip
                (Auth.with_failedAttempts a swept)))
  /\ (forall now_attempt now_lock ip s,
        let s1 := Api.recordAPIFailedAttempt now_attempt now_lock ip s in
        is_Some (Api.failedAttempts s1 !! ip)
        /\ (forall k, is_Some (Api.failedAttempts s !! k) ->
                      is_Some (Api.failedAttempts s1 !! k))
        /\ (Api.failedAttempts s !! ip = None ->
            size (Api.failedAttempts s1) = S (size (Api.failedAttempts s)))).
Proof.
  split; [|split].
  - intros L entropy tok es. apply run_size. simpl. rewrite map_size_empty.
    unfold Auth.maxRecords. lia.
  - intros now_sweep now_lock ip a Hcap swept. split; [|split].
    + intros k. apply lookup_sweepExpired.
    + intros Hfull. rewrite recordFailedAttempt_dropped by (fold swept; lia).
      fold swept.
      assert (swept = Auth.failedAttempts a) as ->.
      { apply (delete_loop_full _ (fun _ v => After now_sweep (Auth.lockedUntil v)));
          [done|]. fold (Auth.sweepExpired now_sweep (Auth.failedAttempts a)).
        fold swept. lia. }
      by rewrite with_failedAttempts_id.
    + intros Hroom.
      rewrite (recordFailedAttempt_counted _ _ _ a swept).
      * rewrite recordFailedAttempt_below by (simpl; lia). simpl.
        by destruct a.
      * subst swept. rewrite (proj2 (Z.leb_le _ _)) by lia. done.
      * rewrite (proj2 (Z.leb_gt _ _) Hroom). apply andb_false_r.
  - intros now_attempt now_lock ip s. cbv zeta.
    rewrite api_recordAPIFailedAttempt. cbv zeta. simpl. split; [|split].
    + rewrite lookup_insert_eq. by eexists.
    + intros k Hk. destruct (decide (ip = k)) as [->|Hne].
      * rewrite lookup_insert_eq. by eexists.
      * by rewrite lookup_insert_ne.
    + intros Hnew. by apply map_size_insert_None.
Qed.

(** ** The decision of [authorize] *)

Lemma wrap_int_small x : - 2 ^ 63 <= x < 2 ^ 63 -> wrap_int x = x.
Proof. intros Hx. unfold wrap_int. rewrite Z.mod_small; lia. Qed.

Lemma wrap_int_range x : - 2 ^ 63 <= wrap_int x < 2 ^ 63.
Proof.
  unfold wrap_int. pose proof (Z.mod_pos_bound (x + 2 ^ 63) (2 ^ 64)). lia.
Qed.

Lemma presents_stripped secret ctx :
  presents secret ctx <->
  exists v, presented ctx = Some v /\
    (if HasPrefix v "Bearer " then TrimPrefix v "Bearer " else v) = secret.
Proof.
  unfold presents. split; intros (v&Hv&Hs); exists v; (split; [done|]);
    by apply stripped_matches.
Qed.

Lemma presents_decidable secret ctx :
  presents secret ctx \/ ~ presents secret ctx.
Proof.
  rewrite presents_stripped. destruct (presented ctx) as [v|].
  - destruct (decide ((if HasPrefix v "Bearer " then TrimPrefix v "Bearer "
                       else v) = secret)) as [Heq|Hne].
    + left. by exists v.
    + right. intros (v'&?&?). by simplify_eq.
  - right. by intros (v'&?&?).
Qed.

(** C2, amended.  For a call of a peer that is not locked, [authorize]
    lets the call through exactly when the first value of the authorization
    field is the secret, bare or behind an exact-case "Bearer " prefix.  On
    a match the record of the peer is deleted.  Otherwise
    [recordFailedAttempt] runs (below the capacity of the table it adds one
    to the count of the peer) and the call is rejected: as Unauthenticated,
    except that a call that did carry a credential is rejected as
    ResourceExhausted when [recordFailedAttempt] reports that this failure
    locked the peer. *)
Theorem authorize_unlocked_decision nc ns nl ctx a :
  let ip := Auth.getClientIP ctx in
  let rec := Auth.recordFailedAttempt ns nl ip a in
  let r := Auth.authorize nc ns nl ctx a in
  Auth.isLocked nc ip a = false ->
  (r.2 = None <-> presents (Auth.token a) ctx) /\
  (presents (Auth.token a) ctx ->
     Auth.failedAttempts r.1 = delete ip (Auth.failedAttempts a)) /\
  (~ presents (Auth.token a) ctx ->
     r.1 = rec.1 /\
     Auth.status_Code r.2 =
       (if bool_decide (is_Some (presented ctx)) && rec.2
        then Auth.ResourceExhausted else Auth.Unauthenticated) /\
     (Z.of_nat (size (Auth.failedAttempts a)) < Auth.maxRecords ->
      exists info,
        Auth.failedAttempts r.1 !! ip = Some info /\
        Auth.count info =
          wrap_int (Auth.count (default Auth.attemptInfo_zero
                                  (Auth.failedAttempts a !! ip)) + 1))).
Proof.
  intros ip rec r Hun.
  destruct (authorize_unlocked nc ns nl ctx a Hun) as [Hyes Hno].
  fold ip in Hyes, Hno. fold rec in Hno. fold r in Hyes, Hno.
  split; [|split].
  - split.
    + intros Hr. destruct (presents_decidable (Auth.token a) ctx) as [|Hn]; [done|].
      destruct (Hno Hn) as [msg Heq]. rewrite Heq in Hr. done.
    + intros Hp. by rewrite (Hyes Hp).
  - intros Hp. by rewrite (Hyes Hp).
  - intros Hn. destruct (Hno Hn) as [msg Heq]. rewrite Heq. simpl.
    split; [done|]. split; [done|]. intros Hroom. subst rec.
    rewrite recordFailedAttempt_below by done. simpl.
    rewrite lookup_insert_eq. eexists. split; [done|]. done.
Qed.

(** ** Five failures lock a peer out *)








(** ** Failures past the threshold *)


(** ** The reaper *)

Lemma api_lookup_cleanupSweep now (fa : gmap string Api.apiAttemptInfo) k :
  Api.cleanupSweep now fa !! k =
    match fa !! k with
    | Some v =>
        if After now (Api.lockedUntil v)
           && (30 * Minute <? Sub now (Api.lastAttempt v))
        then None else Some v
    | None => None
    end.
Proof.
  unfold Api.cleanupSweep.
  apply (delete_loop_lookup _ (fun _ v =>
           After now (Api.lockedUntil v)
           && (30 * Minute <? Sub now (Api.lastAttempt v)))).
  done.
Qed.

Lemma rest_reap_rule_at (fa : gmap string Api.apiAttemptInfo) ip info :
  fa !! ip = Some info ->
  forall now,
    (Api.cleanupSweep now fa !! ip = None <->
       Api.lockedUntil info < now /\ 30 * Minute < now - Api.lastAttempt info)
    /\ (Api.cleanupSweep now fa !! ip = None
        \/ Api.cleanupSweep now fa !! ip = Some info)
    /\ (forall T0,
          Api.lockedUntil info = T0 + 15 * Minute ->
          T0 - 10 * Minute <= Api.lastAttempt info <= T0 ->
          Api.cleanupSweep (T0 + 20 * Minute) fa !! ip = Some info
          /\ Api.cleanupSweep (T0 + 46 * Minute) fa !! ip = None).
Proof.
  intros Hi.
  assert (Hrule : forall t,
    Api.cleanupSweep t fa !! ip =
      if After t (Api.lockedUntil info)
         && (30 * Minute <? Sub t (Api.lastAttempt info))
      then None else Some info).
  { intros t. by rewrite api_lookup_cleanupSweep, Hi. }
  assert (Hiff : forall t,
    After t (Api.lockedUntil info)
      && (30 * Minute <? Sub t (Api.lastAttempt info)) = true <->
    Api.lockedUntil info < t /\ 30 * Minute < t - Api.lastAttempt info).
  { intros t. unfold After. rewrite andb_true_iff, !Z.ltb_lt.
    assert (30 * Minute < Sub t (Api.lastAttempt info)
            <-> 30 * Minute < t - Api.lastAttempt info) as -> by clock_arith.
    done. }
  intros now. split; [|split].
  - rewrite Hrule, <- Hiff. destruct (_ && _); split; congruence.
  - rewrite Hrule. destruct (_ && _); auto.
  - intros T0 HT Hla. rewrite !Hrule. split.
    + destruct (_ && _) eqn:E; [|done]. apply Hiff in E. clock_arith.
    + destruct (_ && _) eqn:E; [done|].
      assert (Hn : ~ (Api.lockedUntil info < T0 + 46 * Minute
                      /\ 30 * Minute < T0 + 46 * Minute - Api.lastAttempt info)).
      { rewrite <- Hiff, E. done. }
      destruct Hn. clock_arith.
Qed.

(** C6, amended.  One pass of the reaper of the interceptor deletes the
    record of a peer exactly when its lock has passed and its count is
    below five, or more than thirty minutes have gone by since its lock
    ended.  One pass of the reaper of the REST server deletes a record
    exactly when its lock has passed and its last attempt is more than
    thirty minutes old, whatever its count.  In both, a record that is not
    deleted is left as it was, and a peer locked at T0 until T0 + 15 min,
    with no attempt after T0, is still on record after a pass at
    T0 + 20 min and is gone after a pass at T0 + 46 min. *)
Theorem reap_rule :
  (forall now (fa : gmap string Auth.attemptInfo) ip info,
     fa !! ip = Some info ->
     (Auth.cleanupSweep now fa !! ip = None <->
        (Auth.lockedUntil info < now /\ Auth.count info < Auth.MaxFailedAttempts)
        \/ Auth.lockedUntil info + 30 * Minute < now)
     /\ (Auth.cleanupSweep now fa !! ip = None
         \/ Auth.cleanupSweep now fa !! ip = Some info)
     /\ (forall T0,
           Auth.lockedUntil info = T0 + 15 * Minute ->
           Auth.MaxFailedAttempts <= Auth.count info ->
           Auth.cleanupSweep (T0 + 20 * Minute) fa !! ip = Some info
           /\ Auth.cleanupSweep (T0 + 46 * Minute) fa !! ip = None))
  /\ (forall now (fa : gmap string Api.apiAttemptInfo) ip info,
     fa !! ip = Some info ->
     (Api.cleanupSweep now fa !! ip = None <->
        Api.lockedUntil info < now /\ 30 * Minute < now - Api.lastAttempt info)
     /\ (Api.cleanupSweep now fa !! ip = None
         \/ Api.cleanupSweep now fa !! ip = Some info)
     /\ (forall T0,
           Api.lockedUntil info = T0 + 15 * Minute ->
           T0 - 10 * Minute <= Api.lastAttempt info <= T0 ->
           Api.cleanupSweep (T0 + 20 * Minute) fa !! ip = Some info
           /\ Api.cleanupSweep (T0 + 46 * Minute) fa !! ip = None)).
Proof.
  split; intros now fa ip info Hi; [|revert now; apply rest_reap_rule_at; exact Hi].
  assert (Hrule : forall t,
    Auth.cleanupSweep t fa !! ip =
      if After t (Auth.lockedUntil info) && (Auth.count info <? Auth.MaxFailedAttempts)
         || After t (Add (Auth.lockedUntil info) (30 * Minute))
      then None else Some info).
  { intros t. by rewrite lookup_cleanupSweep, Hi. }
  assert (Hiff : forall t,
    After t (Auth.lockedUntil info) && (Auth.count info <? Auth.MaxFailedAttempts)
      || After t (Add (Auth.lockedUntil info) (30 * Minute)) = true <->
    (Auth.lockedUntil info < t /\ Auth.count info < Auth.MaxFailedAttempts)
     \/ Auth.lockedUntil info + 30 * Minute < t).
  { intros t. unfold After, Add.
    rewrite orb_true_iff, andb_true_iff, !Z.ltb_lt. done. }
  split; [|split].
  - rewrite Hrule, <- Hiff. destruct (_ || _); split; congruence.
  - rewrite Hrule. destruct (_ || _); auto.
  - intros T0 HT Hc. rewrite !Hrule. split.
    + destruct (_ || _) eqn:E; [|done]. apply Hiff in E.
      clock_arith.
    + destruct (_ || _) eqn:E; [done|].
      assert (Hn : ~ ((Auth.lockedUntil info < T0 + 46 * Minute
                       /\ Auth.count info < Auth.MaxFailedAttempts)
                      \/ Auth.lockedUntil info + 30 * Minute < T0 + 46 * Minute)).
      { rewrite <- Hiff, E. done. }
      destruct Hn. right. clock_arith.
Qed.

(** ** How rejections are reported *)

(** C4, amended.  A call that meets a running lock is rejected in a class
    of its own: ResourceExhausted by the interceptor, whose status holds a
    code and a message and no retry-after value, and 429 with the header
    Retry-After: 900 by the REST middleware; neither records a failure.  A
    call without a credential or with a wrong one is rejected as
    Unauthenticated (401 by the middleware), except that the interceptor
    answers ResourceExhausted to the wrong credential that locks the peer.
    The message says which check failed. *)
Theorem rejection_classes :
  (* gRPC interceptor *)
  (forall nc ns nl ctx a,
      let ip := Auth.getClientIP ctx in
      let rec := Auth.recordFailedAttempt ns nl ip a in
      let r := Auth.authorize nc ns nl ctx a in
      (Auth.isLocked nc ip a = true ->
         r = (a, Auth.status_Error Auth.ResourceExhausted
                   "认证失败次数过多，请稍后重试"))
      /\ (Auth.isLocked nc ip a = false -> presented ctx = None ->
          Auth.status_Code r.2 = Auth.Unauthenticated /\
          (Auth.error_message r.2 = "缺少元数据"
           \/ Auth.error_message r.2 = "缺少认证令牌"))
      /\ (Auth.isLocked nc ip a = false -> is_Some (presented ctx) ->
          ~ presents (Auth.token a) ctx ->
          r.2 = if rec.2
                then Auth.status_Error Auth.ResourceExhausted
                       "认证失败次数过多，账户已锁定"
                else Auth.status_Error Auth.Unauthenticated "认证令牌无效"))
  (* REST middleware *)
  /\ (forall next nc na nl w r s,
      let ip := Api.RemoteAddr r in
      let auth := Api.Header_Get r "Authorization" in
      let out := Api.authMiddleware next nc na nl w r s in
      (api_locked nc ip s = true ->
         out.1 = s /\
         Api.StatusCode out.2 = Some Api.StatusTooManyRequests /\
         Api.Header out.2 !! "Retry-After" = Some "900" /\
         Api.Body out.2 =
           Some {| Api.Success := false; Api.Error := "Too many failed attempts" |})
      /\ (api_locked nc ip s = false -> auth = "" ->
          Api.StatusCode out.2 = Some Api.StatusUnauthorized /\
          Api.Body out.2 =
            Some {| Api.Success := false;
                    Api.Error := "Missing authorization header" |})
      /\ (api_locked nc ip s = false -> auth <> "" ->
          TrimPrefix auth "Bearer " <> Api.token s ->
          Api.StatusCode out.2 = Some Api.StatusUnauthorized /\
          Api.Body out.2 =
            Some {| Api.Success := false; Api.Error := "Invalid token" |})).
Proof.
  split.
  - intros nc ns nl ctx a ip rec r. subst r. unfold Auth.authorize. cbv zeta.
    fold ip. fold rec. unfold presents, presented, Auth.md_Get.
    split; [|split].
    + by intros ->.
    + intros -> Hp. destruct (Auth.incoming_md ctx) as [md|]; simpl; [|auto].
      destruct (md !! "authorization") as [[|v vs]|]; simpl; auto. done.
    + intros -> [v Hp] Hno.
      destruct (Auth.incoming_md ctx) as [md|]; [|done].
      destruct (md !! "authorization") as [[|v' vs]|]; [done| |done].
      simpl. injection Hp as ->.
      destruct (ConstantTimeCompare _ (Auth.token a) =? 1) eqn:Ec.
      * apply ConstantTimeCompare_eq in Ec. destruct Hno. exists v.
        split; [done|]. by apply stripped_matches.
      * simpl. by destruct rec as [a1 []].
  - intros next nc na nl w r s ip auth out. subst out.
    unfold Api.authMiddleware. cbv zeta. fold ip. fold auth.
    change (match Api.failedAttempts s !! ip with
            | Some info => Before nc (Api.lockedUntil info)
            | None => false
            end) with (api_locked nc ip s).
    split; [|split].
    + intros ->. simpl. split; [done|]. split; [done|]. split; [|done].
      rewrite lookup_insert_ne by done. by rewrite lookup_insert_eq.
    + intros -> ->. done.
    + intros -> Hne Hmis. apply String.eqb_neq in Hne. rewrite Hne.
      apply ConstantTimeCompare_neq in Hmis. rewrite Hmis. done.
Qed.

(** ** The REST middleware next to the interceptor *)

(** X9. The REST table has no capacity guard: a failure of a new address
    always adds a record. *)
Lemma api_table_grows now_attempt now_lock ip s :
  Api.failedAttempts s !! ip = None ->
  size (Api.failedAttempts (Api.recordAPIFailedAttempt now_attempt now_lock ip s))
  = S (size (Api.failedAttempts s)).
Proof.
  intros Hnew. rewrite api_recordAPIFailedAttempt. simpl.
  by apply map_size_insert_None.
Qed.

(** X8. The REST sweep goes by the time of the last attempt, not by the
    count: a record is deleted exactly when its lock has passed and its
    last attempt is more than thirty minutes old, and is otherwise kept
    as it is. *)
Lemma api_reap_rule now (fa : gmap string Api.apiAttemptInfo) ip info :
  fa !! ip = Some info ->
  (Api.cleanupSweep now fa !! ip = None <->
     Api.lockedUntil info < now /\ 30 * Minute < now - Api.lastAttempt info)
  /\ (Api.cleanupSweep now fa !! ip = None
      \/ Api.cleanupSweep now fa !! ip = Some info).
Proof.
  intros Hi. rewrite api_lookup_cleanupSweep, Hi. unfold After.
  assert (Hsub : 30 * Minute < Sub now (Api.lastAttempt info)
                 <-> 30 * Minute < now - Api.lastAttempt info).
  { clock_arith. }
  destruct ((Api.lockedUntil info <? now)
            && (30 * Minute <? Sub now (Api.lastAttempt info))) eqn:E.
  - apply andb_true_iff in E as [E1%Z.ltb_lt E2%Z.ltb_lt].
    split; [|by left]. split; [|done]. intros _. split; [done|]. by apply Hsub.
  - split; [|by right]. split; [done|]. intros [E1%Z.ltb_lt E2%Hsub%Z.ltb_lt].
    rewrite E1, E2 in E. done.
Qed.

(** X10. The middleware lets a call of an address that is not locked
    through exactly when the header, without its "Bearer " prefix, is the
    secret; every other call is answered 401 and counted. *)
Lemma api_unlocked_decision next nc na nl w r s :
  let ip := Api.RemoteAddr r in
  let auth := Api.Header_Get r "Authorization" in
  let out := Api.authMiddleware next nc na nl w r s in
  api_locked nc ip s = false ->
  (auth <> "" /\ TrimPrefix auth "Bearer " = Api.token s ->
     out = (Api.with_failedAttempts s (delete ip (Api.failedAttempts s)),
            next w r))
  /\ (~ (auth <> "" /\ TrimPrefix auth "Bearer " = Api.token s) ->
      out.1 = Api.recordAPIFailedAttempt na nl ip s
      /\ Api.StatusCode out.2 = Some Api.StatusUnauthorized).
Proof.
  intros ip auth out Hun. subst out. unfold Api.authMiddleware. cbv zeta.
  fold ip. fold auth.
  change (match Api.failedAttempts s !! ip with
          | Some info => Before nc (Api.lockedUntil info)
          | None => false
          end) with (api_locked nc ip s).
  rewrite Hun. destruct (String.eqb auth "") eqn:Ee.
  - apply String.eqb_eq in Ee. split; [by intros [? _]|done].
  - apply String.eqb_neq in Ee.
    destruct (ConstantTimeCompare _ (Api.token s) =? 1) eqn:Ec; simpl.
    + apply ConstantTimeCompare_eq in Ec. split; [done|]. by intros [].
    + apply ConstantTimeCompare_neq in Ec. split; [by intros [_ ?]|done].
Qed.

(** ** Sessions *)

(** C8. [ValidateSession] on a token without a session returns a nil
    pointer and a nil error and changes nothing; its error is nil in every
    case.  On a token made by [CreateSession] it returns the stored
    session with [LastUsed] set to the time of the lookup, so of two
    lookups the later one leaves a strictly later [LastUsed].  The only
    calls that remove a session are [RevokeSession] of its token and
    [RevokeAllSessions]. *)
Theorem session_lookup_contract :
  (* no session: an absent result and a nil error, nothing changes *)
  (forall now tok sm,
      Auth.sessions sm !! tok = None ->
      Auth.ValidateSession now tok sm = (sm, (None, None)))
  (* the error is nil in every case *)
  /\ (forall now tok sm, (Auth.ValidateSession now tok sm).2.2 = None)
  (* a created session is found, returned, and stamped with the time of
     the lookup; a later lookup stamps a later time *)
  /\ (forall t0 t1 t2 tok ip sm,
      let '(sm0, p) := Auth.CreateSession t0 tok ip sm in
      let '(sm1, r1) := Auth.ValidateSession t1 tok sm0 in
      let '(sm2, r2) := Auth.ValidateSession t2 tok sm1 in
      r1 = (Some p, None) /\ r2 = (Some p, None) /\
      Auth.sessions sm2 !! tok = Some p /\
      Auth.heap sm1 !! p =
        Some {| Auth.session_Token := tok; Auth.ClientIP := ip;
                Auth.CreatedAt := t0; Auth.LastUsed := t1 |} /\
      Auth.heap sm2 !! p =
        Some {| Auth.session_Token := tok; Auth.ClientIP := ip;
                Auth.CreatedAt := t0; Auth.LastUsed := t2 |} /\
      (t1 < t2 ->
       exists s1 s2, Auth.heap sm1 !! p = Some s1 /\ Auth.heap sm2 !! p = Some s2
                     /\ Auth.LastUsed s1 < Auth.LastUsed s2))
  (* only the two revocations remove a session *)
  /\ (forall c tok sm,
      is_Some (Auth.sessions sm !! tok) ->
      Auth.sessions (Auth.session_step c sm) !! tok = None ->
      c = Auth.CallRevokeSession tok \/ c = Auth.CallRevokeAllSessions).
Proof.
  split; [|split; [|split]].
  - intros now tok sm Hn. unfold Auth.ValidateSession. by rewrite Hn.
  - intros now tok sm. unfold Auth.ValidateSession.
    by destruct (Auth.sessions sm !! tok).
  - intros t0 t1 t2 tok ip sm.
    unfold Auth.CreateSession, Auth.ValidateSession. simpl.
    rewrite !lookup_insert_eq. simpl.
    rewrite !lookup_alter_eq, !lookup_insert_eq. simpl.
    split_and!; try done.
    + by rewrite lookup_insert_eq.
    + by rewrite !lookup_alter_eq, lookup_insert_eq.
    + intros Hlt. eexists _, _. split; [done|]. split.
      * by rewrite !lookup_alter_eq, lookup_insert_eq.
      * done.
  - intros c tok sm [p Hp] Hgone.
    destruct c as [now tok' ip|now tok'| tok'| | |]; simpl in Hgone.
    + destruct (decide (tok' = tok)) as [->|Hne].
      * by rewrite lookup_insert_eq in Hgone.
      * rewrite lookup_insert_ne in Hgone by done. congruence.
    + unfold Auth.ValidateSession in Hgone.
      destruct (Auth.sessions sm !! tok'); simpl in Hgone; congruence.
    + destruct (decide (tok' = tok)) as [->|Hne]; [by left|].
      rewrite lookup_delete_ne in Hgone by done. congruence.
    + by right.
    + congruence.
    + congruence.
Qed.

(** ** Signed tokens *)

Lemma SplitN2_cut before after sep :
  has_byte sep before = false ->
  Auth.SplitN2 (before +:+ String sep after) sep = [before; after].
Proof.
  induction before as [|c before IH]; simpl.
  - intros _. by rewrite Ascii.eqb_refl.
  - destruct (Ascii.eqb c sep); [done|]. intros Hb. by rewrite IH.
Qed.

Lemma SplitN2_whole s sep :
  has_byte sep s = false -> Auth.SplitN2 s sep = [s].
Proof.
  induction s as [|c s IH]; simpl; [done|].
  destruct (Ascii.eqb c sep); [done|]. intros Hb. by rewrite IH.
Qed.

Lemma has_byte_app c s t :
  has_byte c (s +:+ t) = has_byte c s || has_byte c t.
Proof.
  induction s as [|d s IH]; simpl; [done|]. by destruct (Ascii.eqb d c).
Qed.

Lemma one_char_changed_neq s t : one_char_changed s t -> s <> t.
Proof.
  intros (pre & c & d & post & Hcd & -> & ->).
  induction pre as [|x pre IH]; simpl; intros Heq.
  - injection Heq as Heq. done.
  - injection Heq as Heq. auto.
Qed.

Section TokenProperties.
Context `{Auth.GoLib}.

Lemma ValidateSignedToken_parts token key payloadB64 sigB64 :
  Auth.SplitN2 token "." = [payloadB64; sigB64] ->
  Auth.ValidateSignedToken token key =
    if String.eqb sigB64
         (Auth.base64_EncodeToString (Auth.hmac_sha256 key payloadB64))
    then match Auth.base64_DecodeString payloadB64 with
         | None => Auth.fmt_Errorf "invalid token payload"
         | Some payload =>
             match Auth.json_Unmarshal payload with
             | None => Auth.fmt_Errorf "invalid token claims"
             | Some _ => None
             end
         end
    else Auth.fmt_Errorf "invalid token signature".
Proof.
  intros Hs. unfold Auth.ValidateSignedToken, ConstantTimeCompare.
  rewrite Hs. by destruct (String.eqb sigB64 _).
Qed.

(** C3. [ValidateSignedToken] takes no clock reading and never looks at
    [ExpiresAt]: a token made of an encoded payload and the tag of that
    payload under the given key is accepted whenever the payload decodes
    and parses, also when its [ExpiresAt] lies before the current time. *)
Theorem expiry_is_not_checked key payloadB64 payload claims now :
  has_byte "." payloadB64 = false ->
  Auth.base64_DecodeString payloadB64 = Some payload ->
  Auth.json_Unmarshal payload = Some claims ->
  Auth.ExpiresAt claims < Auth.Unix now ->
  Auth.ValidateSignedToken
    (payloadB64 +:+ "." +:+
       Auth.base64_EncodeToString (Auth.hmac_sha256 key payloadB64)) key
  = None.
Proof.
  intros Hdot Hdec Hjson _.
  rewrite (ValidateSignedToken_parts _ _ payloadB64
             (Auth.base64_EncodeToString (Auth.hmac_sha256 key payloadB64))).
  - by rewrite String.eqb_refl, Hdec, Hjson.
  - by apply SplitN2_cut.
Qed.

(** *** Round trip and tampering, given the laws of the codecs *)

Hypothesis base64_alphabet : forall s,
  has_byte "." (Auth.base64_EncodeToString s) = false.
Hypothesis base64_round_trip : forall s,
  Auth.base64_DecodeString (Auth.base64_EncodeToString s) = Some s.
Hypothesis json_round_trip : forall c p,
  Auth.json_Marshal c = Some p -> Auth.json_Unmarshal p = Some c.

Lemma base64_EncodeToString_inj s t :
  Auth.base64_EncodeToString s = Auth.base64_EncodeToString t -> s = t.
Proof.
  intros Heq. apply (f_equal Auth.base64_DecodeString) in Heq.
  rewrite !base64_round_trip in Heq. congruence.
Qed.

Lemma signed_token_round_trip now entropy key ttl token :
  Auth.GenerateSignedToken now entropy key ttl = (token, None) ->
  Auth.ValidateSignedToken token key = None.
Proof.
  unfold Auth.GenerateSignedToken, Auth.GenerateToken.
  destruct entropy as [bytes|]; [|done].
  destruct (Auth.json_Marshal _) as [payload|] eqn:Em; [|done].
  intros [= <-].
  rewrite (ValidateSignedToken_parts _ _ (Auth.base64_EncodeToString payload)
             (Auth.base64_EncodeToString
                (Auth.hmac_sha256 key (Auth.base64_EncodeToString payload)))).
  - rewrite String.eqb_refl, base64_round_trip.
    by rewrite (json_round_trip _ _ Em).
  - by apply SplitN2_cut.
Qed.

(** Any change to the signature segment is rejected. *)
Lemma tampered_signature_rejected key payloadB64 sigB64 :
  has_byte "." payloadB64 = false ->
  sigB64 <> Auth.base64_EncodeToString (Auth.hmac_sha256 key payloadB64) ->
  Auth.ValidateSignedToken (payloadB64 +:+ "." +:+ sigB64) key
  = Auth.fmt_Errorf "invalid token signature".
Proof.
  intros Hdot Hne.
  rewrite (ValidateSignedToken_parts _ _ payloadB64 sigB64)
    by by apply SplitN2_cut.
  apply String.eqb_neq in Hne. by rewrite Hne.
Qed.

(** A changed payload segment is rejected exactly when its tag differs
    from the tag of the original payload. *)
Lemma tampered_payload_rejected key payloadB64 payloadB64' :
  has_byte "." payloadB64' = false ->
  Auth.hmac_sha256 key payloadB64' <> Auth.hmac_sha256 key payloadB64 ->
  Auth.ValidateSignedToken
    (payloadB64' +:+ "." +:+
       Auth.base64_EncodeToString (Auth.hmac_sha256 key payloadB64)) key
  = Auth.fmt_Errorf "invalid token signature".
Proof.
  intros Hdot Hne. apply tampered_signature_rejected; [done|].
  intros Heq. apply base64_EncodeToString_inj in Heq. congruence.
Qed.

Lemma colliding_payload_accepted key payloadB64 payloadB64' payload c :
  has_byte "." payloadB64' = false ->
  Auth.hmac_sha256 key payloadB64' = Auth.hmac_sha256 key payloadB64 ->
  Auth.base64_DecodeString payloadB64' = Some payload ->
  Auth.json_Unmarshal payload = Some c ->
  Auth.ValidateSignedToken
    (payloadB64' +:+ "." +:+
       Auth.base64_EncodeToString (Auth.hmac_sha256 key payloadB64)) key
  = None.
Proof.
  intros Hdot Heq Hdec Hjson. rewrite <- Heq.
  rewrite (ValidateSignedToken_parts _ _ payloadB64'
             (Auth.base64_EncodeToString (Auth.hmac_sha256 key payloadB64')))
    by by apply SplitN2_cut.
  by rewrite String.eqb_refl, Hdec, Hjson.
Qed.
(** A payload character replaced by the separator moves the cut: the
    signature segment then holds a separator and cannot be a tag. *)
Lemma separator_in_payload_rejected key before after sigB64 :
  has_byte "." before = false ->
  Auth.ValidateSignedToken
    ((before +:+ String "." after) +:+ "." +:+ sigB64) key
  = Auth.fmt_Errorf "invalid token signature".
Proof.
  intros Hb.
  assert (Hcut : Auth.SplitN2 ((before +:+ String "." after) +:+ "." +:+ sigB64) "."
                 = [before; after +:+ "." +:+ sigB64]).
  { rewrite string_append_assoc. by apply SplitN2_cut. }
  rewrite (ValidateSignedToken_parts _ _ _ _ Hcut).
  destruct (String.eqb _ _) eqn:E; [|done].
  apply String.eqb_eq in E. apply (f_equal (has_byte ".")) in E.
  rewrite base64_alphabet, has_byte_app in E. simpl in E.
  rewrite orb_true_r in E. done.
Qed.

Lemma generated_token_parts now entropy key ttl token :
  Auth.GenerateSignedToken now entropy key ttl = (token, None) ->
  exists payload,
    token = Auth.base64_EncodeToString payload +:+ "." +:+
            Auth.base64_EncodeToString
              (Auth.hmac_sha256 key (Auth.base64_EncodeToString payload)).
Proof.
  unfold Auth.GenerateSignedToken, Auth.GenerateToken.
  destruct entropy as [bytes|]; [|done].
  destruct (Auth.json_Marshal _) as [payload|]; [|done].
  intros [= <-]. by exists payload.
Qed.

(** One character of the signature segment changed. *)
Lemma changed_signature_rejected key payloadB64 sigB64' :
  has_byte "." payloadB64 = false ->
  one_char_changed
    (Auth.base64_EncodeToString (Auth.hmac_sha256 key payloadB64)) sigB64' ->
  Auth.ValidateSignedToken (payloadB64 +:+ "." +:+ sigB64') key
  = Auth.fmt_Errorf "invalid token signature".
Proof.
  intros Hdot Hch%one_char_changed_neq.
  apply tampered_signature_rejected; [done|]. congruence.
Qed.

(** One character of the payload segment changed: the token is rejected
    for its signature provided the tag of the changed payload is not the
    tag of the original. *)
Lemma changed_payload_rejected key payloadB64 payloadB64' :
  has_byte "." payloadB64 = false ->
  one_char_changed payloadB64 payloadB64' ->
  Auth.hmac_sha256 key payloadB64' <> Auth.hmac_sha256 key payloadB64 ->
  Auth.ValidateSignedToken
    (payloadB64' +:+ "." +:+
       Auth.base64_EncodeToString (Auth.hmac_sha256 key payloadB64)) key
  = Auth.fmt_Errorf "invalid token signature".
Proof.
  intros Hdot (pre & c & d & post & Hcd & -> & ->) Hmac.
  rewrite has_byte_app in Hdot. apply orb_false_iff in Hdot as [Hpre Hpost].
  simpl in Hpost. destruct (Ascii.eqb c ".") eqn:Ec; [done|].
  destruct (Ascii.eqb d ".") eqn:Ed.
  - apply Ascii.eqb_eq in Ed as ->.
    by apply separator_in_payload_rejected.
  - apply tampered_payload_rejected; [|done].
    rewrite has_byte_app, Hpre. simpl. by rewrite Ed.
Qed.

End TokenProperties.

(** ** The statements on sample data *)

Example bearer_prefix_accepted :
  (Auth.authorize noon noon noon (call_with "Bearer correct-token") (gateway ∅)).2
  = None.
Proof. by vm_compute. Qed.

Example bare_secret_accepted :
  (Auth.authorize noon noon noon (call_with "correct-token") (gateway ∅)).2 = None.
Proof. by vm_compute. Qed.

Example lower_case_prefix_rejected :
  Auth.status_Code
    (Auth.authorize noon noon noon (call_with "bearer correct-token") (gateway ∅)).2
  = Auth.Unauthenticated.
Proof. by vm_compute. Qed.

Example first_failure_counted :
  Auth.failedAttempts
    (Auth.authorize noon noon noon (call_with "wrong") (gateway ∅)).1 !! peer
  = Some {| Auth.count := 1; Auth.lockedUntil := 0 |}.
Proof. by vm_compute. Qed.

Example success_clears_the_record :
  Auth.failedAttempts
    (Auth.authorize noon noon noon (call_with "correct-token") four_strikes).1
  !! peer = None.
Proof. by vm_compute. Qed.

Example SplitN2_first_separator :
  Auth.SplitN2 "e30.c2ln.x" "." = ["e30"; "c2ln.x"]
  /\ Auth.SplitN2 "e30" "." = ["e30"].
Proof. by vm_compute. Qed.

(** The REST sweep keeps a record the interceptor's sweep deletes: one
    failure, never locked, a minute old. *)
Example rest_sweep_keeps_recent_record :
  Api.cleanupSweep (noon + 1 * Minute)
    {[ peer := {| Api.count := 1; Api.lockedUntil := 0; Api.lastAttempt := noon |} ]}
    !! peer
  = Some {| Api.count := 1; Api.lockedUntil := 0; Api.lastAttempt := noon |}
  /\ Auth.cleanupSweep (noon + 1 * Minute)
       {[ peer := {| Auth.count := 1; Auth.lockedUntil := 0 |} ]} !! peer
     = None.
Proof. by vm_compute. Qed.

Lemma presented_call_with v : presented (call_with v) = Some v.
Proof. unfold presented, call_with. simpl. by rewrite lookup_singleton_eq. Qed.

(** C2 as first stated fails here: the peer has four failures on record
    and is not locked, the credential is wrong, and the answer is
    ResourceExhausted, not Unauthenticated. *)
Lemma fifth_mismatch_is_ResourceExhausted :
  Auth.isLocked noon (Auth.getClientIP (call_with "wrong")) four_strikes = false
  /\ ~ presents (Auth.token four_strikes) (call_with "wrong")
  /\ Auth.status_Code
       (Auth.authorize noon noon noon (call_with "wrong") four_strikes).2
     = Auth.ResourceExhausted
  /\ Auth.ResourceExhausted <> Auth.Unauthenticated.
Proof.
  split; [by vm_compute|]. split; [|split; [by vm_compute|done]].
  intros (v&Hv&Hs). rewrite presented_call_with in Hv. simplify_eq.
  destruct Hs as [Hs|[Hs _]]; discriminate Hs.
Qed.

Lemma authorize_unlocked_decision_witness :
  Auth.isLocked noon (Auth.getClientIP (call_with "Bearer correct-token"))
    (gateway ∅) = false
  /\ (Auth.authorize noon noon noon (call_with "Bearer correct-token")
        (gateway ∅)).2 = None.
Proof.
  split; [by vm_compute|].
  apply (authorize_unlocked_decision noon noon noon
           (call_with "Bearer correct-token") (gateway ∅)); [by vm_compute|].
  exists "Bearer correct-token"%string. split; [apply presented_call_with|].
  by left.
Defined.

Lemma expiry_is_not_checked_witness :
  @Auth.ValidateSignedToken plain_lib "7f3a.key7f3a" "key" = None.
Proof.
  apply (@expiry_is_not_checked plain_lib "key" "7f3a" "7f3a"
           {| Auth.Token := "7f3a"; Auth.IssuedAt := 0; Auth.ExpiresAt := 0 |}
           noon); [reflexivity | reflexivity | reflexivity | vm_compute; reflexivity].
Defined.

Lemma wrong_is_not_the_secret : ~ presents secret (call_with "wrong").
Proof.
  intros (v&Hv&Hs). rewrite presented_call_with in Hv. simplify_eq.
  destruct Hs as [Hs|[Hs _]]; discriminate Hs.
Qed.



(** C4 as first stated fails here: a call without a credential and a call
    with a wrong one are both turned away as Unauthenticated (401), each
    with a message of its own, in the interceptor and in the middleware;
    and the status that the interceptor gives a locked peer is a code and a
    message. *)
Lemma messages_name_the_cause :
  let missing := (Auth.authorize noon noon noon call_without (gateway ∅)).2 in
  let invalid := (Auth.authorize noon noon noon (call_with "wrong") (gateway ∅)).2 in
  let missing' := (Api.authMiddleware handler noon noon noon blank_writer
                     request_without (server ∅)).2 in
  let invalid' := (Api.authMiddleware handler noon noon noon blank_writer
                     (request_with "wrong") (server ∅)).2 in
  (Auth.status_Code missing = Auth.Unauthenticated
   /\ Auth.status_Code invalid = Auth.Unauthenticated
   /\ Auth.error_message missing <> Auth.error_message invalid)
  /\ (Api.StatusCode missing' = Some 401
      /\ Api.StatusCode invalid' = Some 401
      /\ Api.Body missing' <> Api.Body invalid')
  /\ (Auth.authorize (noon + 1) noon noon (call_with "wrong") five_strikes).2
     = Some (Auth.StatusError Auth.ResourceExhausted "认证失败次数过多，请稍后重试").
Proof.
  split; [|split].
  - split; [by vm_compute|]. split; [by vm_compute|]. by vm_compute.
  - split; [by vm_compute|]. split; [by vm_compute|]. by vm_compute.
  - by vm_compute.
Qed.

Lemma rejection_classes_witness :
  Api.Header (Api.authMiddleware handler (noon + 1 * Minute) noon noon
                blank_writer (request_with "correct-token") locked_server).2
    !! "Retry-After" = Some "900".
Proof.
  apply (proj2 rejection_classes handler (noon + 1 * Minute) noon noon
           blank_writer (request_with "correct-token") locked_server).
  vm_compute. reflexivity.
Defined.

Lemma marks_length i : String.length (marks i) = i.
Proof. induction i as [|i IH]; simpl; [done|]. by rewrite IH. Qed.

Lemma crowd_peer_inj i j : crowd_peer i = crowd_peer j -> i = j.
Proof.
  intros Heq. apply (f_equal String.length) in Heq. unfold crowd_peer in Heq.
  rewrite !string_length_append, !marks_length in Heq. lia.
Qed.

Lemma crowd_table_fresh n i : (n <= i)%nat -> crowd_table n !! crowd_peer i = None.
Proof.
  induction n as [|n IH]; intros Hi; simpl; [apply lookup_empty|].
  rewrite lookup_insert_ne; [apply IH; lia|].
  intros Heq%crowd_peer_inj. lia.
Qed.

Lemma crowd_table_size n : size (crowd_table n) = n.
Proof.
  induction n as [|n IH]; simpl; [apply map_size_empty|].
  rewrite map_size_insert_None by (apply crowd_table_fresh; lia). by rewrite IH.
Qed.

Lemma crowd_table_locked n k v :
  crowd_table n !! k = Some v -> Auth.lockedUntil v = noon + 60 * Minute.
Proof.
  induction n as [|n IH]; simpl; [by rewrite lookup_empty|].
  destruct (decide (crowd_peer n = k)) as [->|Hne].
  - rewrite lookup_insert_eq. by intros [= <-].
  - rewrite lookup_insert_ne by done. apply IH.
Qed.

Lemma crowd_table_swept n : Auth.sweepExpired noon (crowd_table n) = crowd_table n.
Proof.
  apply map_eq. intros k. rewrite lookup_sweepExpired.
  destruct (crowd_table n !! k) as [v|] eqn:E; [|reflexivity].
  rewrite (crowd_table_locked n k v E). reflexivity.
Qed.

Lemma crowd_at_capacity :
  Z.of_nat (size (Auth.failedAttempts crowd)) = Auth.maxRecords.
Proof.
  unfold crowd, gateway, Auth.failedAttempts. rewrite crowd_table_size.
  apply Z2Nat.id. unfold Auth.maxRecords. lia.
Qed.

Lemma crowd_table_stranger n : crowd_table n !! peer = None.
Proof.
  induction n as [|n IH]; simpl; [apply lookup_empty|].
  rewrite lookup_insert_ne; [done|]. intros Heq.
  apply (f_equal (String.get 0)) in Heq. vm_compute in Heq. discriminate.
Qed.

(** C5 as first stated fails on the REST server: with 10,000 addresses on
    record and every lock running, a failure of a new address is not
    dropped; it is recorded, and the table holds 10,001. *)
Lemma rest_table_outgrows_the_cap :
  let s1 := Api.recordAPIFailedAttempt noon noon peer crowded_server in
  Z.of_nat (size (Api.failedAttempts crowded_server)) = Auth.maxRecords
  /\ (forall k v, Api.failedAttempts crowded_server !! k = Some v ->
                  noon < Api.lockedUntil v)
  /\ Api.failedAttempts s1 !! peer
     = Some {| Api.count := 1; Api.lockedUntil := 0; Api.lastAttempt := noon |}
  /\ Z.of_nat (size (Api.failedAttempts s1)) = Auth.maxRecords + 1.
Proof.
  assert (Hnew : Api.failedAttempts crowded_server !! peer = None).
  { unfold crowded_server, server, Api.failedAttempts.
    rewrite lookup_fmap, crowd_table_stranger. reflexivity. }
  assert (Hsize : Z.of_nat (size (Api.failedAttempts crowded_server))
                  = Auth.maxRecords).
  { unfold crowded_server, server, Api.failedAttempts.
    rewrite map_size_fmap, crowd_table_size.
    apply Z2Nat.id. unfold Auth.maxRecords. lia. }
  assert (Hrun : forall k v, Api.failedAttempts crowded_server !! k = Some v ->
                             noon < Api.lockedUntil v).
  { intros k v. unfold crowded_server, server, Api.failedAttempts.
    rewrite lookup_fmap.
    destruct (crowd_table (Z.to_nat Auth.maxRecords) !! k) as [v0|] eqn:E;
      intros [= <-].
    cbn [Api.lockedUntil]. rewrite (crowd_table_locked _ k v0 E).
    unfold noon. clock_arith. }
  revert Hnew Hsize Hrun. generalize crowded_server. intros s0 Hnew Hsize Hrun s1.
  split; [exact Hsize|]. split; [exact Hrun|]. subst s1.
  rewrite api_recordAPIFailedAttempt, Hnew. cbv zeta. simpl. split.
  - by rewrite lookup_insert_eq.
  - rewrite map_size_insert_None by exact Hnew. lia.
Qed.


Lemma tracker_capacity_witness :
  (Z.of_nat (size (Auth.failedAttempts crowd)) = Auth.maxRecords
   /\ Auth.recordFailedAttempt noon noon peer crowd = (crowd, false))
  /\ size (Api.failedAttempts
             (Api.recordAPIFailedAttempt noon noon "198.51.100.9:4000"
                locked_server))
     = S (size (Api.failedAttempts locked_server)).
Proof.
  split.
  - split; [exact crowd_at_capacity|].
    destruct (proj1 (proj2 tracker_capacity) noon noon peer crowd
                crowd_at_capacity) as (_ & Hdropped & _).
    apply Hdropped. unfold crowd, gateway, Auth.failedAttempts.
    rewrite crowd_table_swept, crowd_table_size, Z2Nat.id;
      unfold Auth.maxRecords; lia.
  - apply (proj2 (proj2 tracker_capacity) noon noon "198.51.100.9:4000"
             locked_server).
    apply lookup_singleton_ne. discriminate.
Defined.

(** C6 as first stated fails on the reaper of the REST server.  A record
    with one failure and no lock, five minutes old, meets the stated
    condition and is kept; a record locked at noon until a quarter past,
    forty minutes old, does not meet it and is deleted. *)
Lemma rest_reaper_goes_by_the_last_attempt :
  let young := {| Api.count := 1; Api.lockedUntil := 0; Api.lastAttempt := noon |} in
  let old := {| Api.count := 5; Api.lockedUntil := noon + 15 * Minute;
                Api.lastAttempt := noon |} in
  ((Api.lockedUntil young < noon + 5 * Minute /\ Api.count young < 5)
   /\ Api.cleanupSweep (noon + 5 * Minute) {[ peer := young ]} !! peer
      = Some young)
  /\ (~ ((Api.lockedUntil old < noon + 40 * Minute /\ Api.count old < 5)
         \/ Api.lockedUntil old + 30 * Minute < noon + 40 * Minute)
      /\ Api.cleanupSweep (noon + 40 * Minute) {[ peer := old ]} !! peer = None).
Proof.
  intros young old. split; split.
  - subst young. simpl. unfold noon. clock_arith.
  - by vm_compute.
  - subst old. simpl. unfold noon. clock_arith.
  - by vm_compute.
Qed.

Lemma reap_rule_witness :
  (Auth.cleanupSweep (noon + 20 * Minute) (Auth.failedAttempts five_strikes) !! peer
     = Some {| Auth.count := 5; Auth.lockedUntil := noon + 15 * Minute |}
   /\ Auth.cleanupSweep (noon + 46 * Minute) (Auth.failedAttempts five_strikes) !! peer
     = None)
  /\ (Api.cleanupSweep (noon + 20 * Minute) (Api.failedAttempts locked_server) !! peer
       = Some {| Api.count := 5; Api.lockedUntil := noon + 15 * Minute;
                 Api.lastAttempt := noon |}
      /\ Api.cleanupSweep (noon + 46 * Minute) (Api.failedAttempts locked_server) !! peer
       = None).
Proof.
  split.
  - apply (proj1 reap_rule (noon + 20 * Minute) (Auth.failedAttempts five_strikes)
             peer {| Auth.count := 5; Auth.lockedUntil := noon + 15 * Minute |}).
    + apply lookup_singleton_eq.
    + reflexivity.
    + vm_compute. discriminate.
  - apply (proj2 reap_rule (noon + 20 * Minute) (Api.failedAttempts locked_server)
             peer {| Api.count := 5; Api.lockedUntil := noon + 15 * Minute;
                     Api.lastAttempt := noon |}).
    + apply lookup_singleton_eq.
    + reflexivity.
    + vm_compute. split; discriminate.
Defined.

Lemma session_lookup_contract_witness :
  Auth.ValidateSession noon "6f1d" (Auth.NewSessionManager ∅)
  = (Auth.NewSessionManager ∅, (None, None)).
Proof.
  apply (proj1 session_lookup_contract noon "6f1d" (Auth.NewSessionManager ∅)).
  reflexivity.
Defined.


(** * Further properties *)

(** ** The interceptors around [authorize] *)

(** X1. [Unary] hands a call of the method
    /runixo.AgentService/Authenticate to the handler without calling
    [authorize], and leaves the interceptor as it was.  For every other
    method, and for every stream, the handler runs exactly when
    [authorize] returns no error; otherwise that error is the reply and
    the handler is not reached.  So a locked peer gets ResourceExhausted
    from every other method and from every stream. *)
Theorem unary_exempts_one_method {Resp : Type} (handler : option Resp * Auth.error)
    (stream_handler : Auth.error) m nc ns nl ctx a :
  let r := Auth.authorize nc ns nl ctx a in
  Auth.Unary handler "/runixo.AgentService/Authenticate" nc ns nl ctx a
    = (a, handler)
  /\ (m <> "/runixo.AgentService/Authenticate" ->
      Auth.Unary handler m nc ns nl ctx a
        = (r.1, match r.2 with Some err => (None, Some err) | None => handler end))
  /\ Auth.Stream stream_handler nc ns nl ctx a
       = (r.1, match r.2 with Some err => Some err | None => stream_handler end)
  /\ (Auth.isLocked nc (Auth.getClientIP ctx) a = true ->
      m <> "/runixo.AgentService/Authenticate" ->
      Auth.Unary handler m nc ns nl ctx a
        = (a, (None, Auth.status_Error Auth.ResourceExhausted
                       "认证失败次数过多，请稍后重试"))
      /\ Auth.Stream stream_handler nc ns nl ctx a
        = (a, Auth.status_Error Auth.ResourceExhausted
                "认证失败次数过多，请稍后重试")).
Proof.
  intros r. split; [done|].
  assert (Hne : m <> "/runixo.AgentService/Authenticate" ->
    Auth.Unary handler m nc ns nl ctx a
      = (r.1, match r.2 with Some err => (None, Some err) | None => handler end)).
  { intros Hm. unfold Auth.Unary. apply String.eqb_neq in Hm. rewrite Hm.
    subst r. by destruct (Auth.authorize nc ns nl ctx a) as [a1 [err|]]. }
  assert (Hst : Auth.Stream stream_handler nc ns nl ctx a
       = (r.1, match r.2 with Some err => Some err | None => stream_handler end)).
  { unfold Auth.Stream. subst r.
    by destruct (Auth.authorize nc ns nl ctx a) as [a1 [err|]]. }
  split; [done|]. split; [done|].
  intros Hl Hm. rewrite (Hne Hm), Hst. subst r.
  unfold Auth.authorize. cbv zeta. by rewrite Hl.
Qed.

(** ** A fresh interceptor *)

Lemma isLocked_no_record now ip a :
  Auth.failedAttempts a !! ip = None -> Auth.isLocked now ip a = false.
Proof. unfold Auth.isLocked. by intros ->. Qed.

Lemma resetFailedAttempts_no_record ip a :
  Auth.failedAttempts a !! ip = None -> Auth.resetFailedAttempts ip a = a.
Proof.
  intros Hn. unfold Auth.resetFailedAttempts.
  rewrite delete_id by done. apply with_failedAttempts_id.
Qed.

(** X2. An interceptor made with a non-empty token keeps it as its
    secret and reports that authentication is required.  A call that
    presents the secret passes and leaves the new interceptor unchanged;
    every other call is rejected as Unauthenticated. *)
Theorem configured_token_is_the_secret `{Auth.GoLib} entropy tok :
  tok <> "" ->
  let a := Auth.NewAuthInterceptor entropy tok in
  Auth.GetToken a = tok
  /\ Auth.IsAuthRequired a = true
  /\ (forall nc ns nl ctx,
        presents tok ctx -> Auth.authorize nc ns nl ctx a = (a, None))
  /\ (forall nc ns nl ctx,
        ~ presents tok ctx ->
        Auth.status_Code (Auth.authorize nc ns nl ctx a).2 = Auth.Unauthenticated).
Proof.
  intros Hne a.
  assert (Ha : a = {| Auth.token := tok; Auth.requireAuth := true;
                      Auth.failedAttempts := ∅ |}).
  { subst a. unfold Auth.NewAuthInterceptor. apply String.eqb_neq in Hne.
    by rewrite Hne. }
  rewrite Ha. split; [done|]. split; [done|].
  set (a0 := {| Auth.token := tok; Auth.requireAuth := true;
                Auth.failedAttempts := ∅ |}).
  assert (Hun : forall nc ctx, Auth.isLocked nc (Auth.getClientIP ctx) a0 = false)
    by (intros; by apply isLocked_no_record).
  split.
  - intros nc ns nl ctx Hp.
    rewrite (proj1 (authorize_unlocked nc ns nl ctx a0 (Hun nc ctx)) Hp).
    by rewrite resetFailedAttempts_no_record.
  - intros nc ns nl ctx Hp.
    destruct (proj2 (authorize_unlocked nc ns nl ctx a0 (Hun nc ctx)) Hp)
      as [msg ->]. simpl.
    rewrite recordFailedAttempt_below by (simpl; rewrite map_size_empty; done).
    simpl. by rewrite andb_false_r.
Qed.

(** X3. An interceptor made without a token reports that authentication
    is not required, but [authorize] never reads that flag: the secret is
    the generated token, and a call without a credential is still
    rejected as Unauthenticated.  When the random source fails, the error
    of [GenerateToken] is dropped and the secret is the empty string,
    which the credentials "" and "Bearer " match. *)
Theorem unconfigured_token_is_generated `{Auth.GoLib} entropy :
  let a := Auth.NewAuthInterceptor entropy "" in
  Auth.IsAuthRequired a = false
  /\ Auth.GetToken a = (Auth.GenerateToken entropy).1
  /\ (forall nc ns nl ctx,
        presented ctx = None ->
        Auth.status_Code (Auth.authorize nc ns nl ctx a).2 = Auth.Unauthenticated)
  /\ (entropy = None ->
      forall nc ns nl ctx,
        presented ctx = Some "" \/ presented ctx = Some "Bearer " ->
        Auth.authorize nc ns nl ctx a = (a, None)).
Proof.
  intros a. split; [done|]. split; [done|].
  assert (Hun : forall nc ctx, Auth.isLocked nc (Auth.getClientIP ctx) a = false)
    by (intros; by apply isLocked_no_record).
  split.
  - intros nc ns nl ctx Hp.
    assert (Hno : ~ presents (Auth.token a) ctx)
      by (intros (v & Hv & _); congruence).
    destruct (proj2 (authorize_unlocked nc ns nl ctx a (Hun nc ctx)) Hno)
      as [msg ->]. simpl. rewrite Hp. done.
  - intros -> nc ns nl ctx Hp.
    assert (Hyes : presents (Auth.token a) ctx).
    { destruct Hp as [Hp|Hp].
      - exists ""%string. split; [exact Hp|]. right. split; [done|].
        intros [rest Hr]. discriminate Hr.
      - exists "Bearer "%string. split; [exact Hp|]. by left. }
    rewrite (proj1 (authorize_unlocked nc ns nl ctx a (Hun nc ctx)) Hyes).
    by rewrite resetFailedAttempts_no_record.
Qed.

(** ** Failures that are forgotten *)





(** ** After a lock has run out *)

(** X5. A lock that has run out leaves its count behind.  A peer whose
    record stands at five or more with the lock passed is let in by the
    secret, which deletes the record; one more failure, also a call with
    no credential, counts on from the old value and locks the peer again
    for fifteen minutes.  The status of that failure is ResourceExhausted
    when a credential was presented and Unauthenticated when none was. *)
Theorem expired_lock_relocks_on_one_failure nc ns nl ctx a info :
  let ip := Auth.getClientIP ctx in
  let r := Auth.authorize nc ns nl ctx a in
  Auth.failedAttempts a !! ip = Some info ->
  Auth.MaxFailedAttempts <= Auth.count info < 2 ^ 63 - 1 ->
  Auth.lockedUntil info <= nc ->
  Z.of_nat (size (Auth.failedAttempts a)) < Auth.maxRecords ->
  (presents (Auth.token a) ctx ->
     r.2 = None /\ Auth.failedAttempts r.1 !! ip = None)
  /\ (~ presents (Auth.token a) ctx ->
      Auth.failedAttempts r.1 !! ip
        = Some {| Auth.count := Auth.count info + 1;
                  Auth.lockedUntil := Add nl Auth.LockoutDuration |}
      /\ Auth.status_Code r.2
         = match presented ctx with
           | Some _ => Auth.ResourceExhausted
           | None => Auth.Unauthenticated
           end).
Proof.
  intros ip r Hi Hc Hexp Hroom.
  assert (Hun : Auth.isLocked nc ip a = false).
  { unfold Auth.isLocked, Before. rewrite Hi.
    by rewrite (proj2 (Z.ltb_ge nc (Auth.lockedUntil info)) Hexp). }
  destruct (authorize_unlocked nc ns nl ctx a Hun) as [Hyes Hno].
  fold ip in Hyes, Hno. fold r in Hyes, Hno. split.
  - intros Hp. rewrite (Hyes Hp). simpl. by rewrite lookup_delete_eq.
  - intros Hp. destruct (Hno Hp) as [msg ->]. simpl.
    rewrite recordFailedAttempt_below by done. simpl.
    rewrite lookup_insert_eq, Hi. unfold bumped. simpl.
    rewrite wrap_int_small by (unfold Auth.MaxFailedAttempts in Hc; lia).
    rewrite (proj2 (Z.leb_le _ _)) by lia. split; [done|].
    by destruct (presented ctx).
Qed.

(** ** Peers do not disturb one another *)

Lemma recordFailedAttempt_other ns nl ip a ip' :
  ip' <> ip ->
  Auth.failedAttempts (Auth.recordFailedAttempt ns nl ip a).1 !! ip'
  = (if Auth.maxRecords <=? Z.of_nat (size (Auth.failedAttempts a))
     then Auth.sweepExpired ns (Auth.failedAttempts a)
     else Auth.failedAttempts a) !! ip'.
Proof.
  intros Hne.
  set (fa1 := if Auth.maxRecords <=? Z.of_nat (size (Auth.failedAttempts a))
              then Auth.sweepExpired ns (Auth.failedAttempts a)
              else Auth.failedAttempts a).
  destruct ((Auth.maxRecords <=? Z.of_nat (size (Auth.failedAttempts a)))
            && (Auth.maxRecords <=? Z.of_nat (size fa1))) eqn:Hgo.
  - apply andb_true_iff in Hgo as [H1 H2]. subst fa1. rewrite H1 in H2 |- *.
    apply Z.leb_le in H1, H2. by rewrite recordFailedAttempt_dropped.
  - rewrite (recordFailedAttempt_counted _ _ _ _ fa1 eq_refl Hgo). simpl.
    by rewrite lookup_insert_ne.
Qed.

(** X6. A call changes the record of no other peer.  In the interceptor
    the record of another peer is untouched while the table is below its
    capacity, is never modified, and is kept in every case when its lock
    has not passed at the time of the sweep; it can only be deleted by
    the sweep of a full table.  In the REST middleware it is untouched. *)
Theorem other_peers_are_left_alone :
  (forall nc ns nl ctx a ip',
      let fa := Auth.failedAttempts a in
      let fa' := Auth.failedAttempts (Auth.authorize nc ns nl ctx a).1 in
      ip' <> Auth.getClientIP ctx ->
      (Z.of_nat (size fa) < Auth.maxRecords -> fa' !! ip' = fa !! ip')
      /\ (forall info, fa' !! ip' = Some info -> fa !! ip' = Some info)
      /\ (forall info, fa !! ip' = Some info -> ns <= Auth.lockedUntil info ->
          fa' !! ip' = Some info))
  /\ (forall next nc na nl w r s ip',
      ip' <> Api.RemoteAddr r ->
      Api.failedAttempts (Api.authMiddleware next nc na nl w r s).1 !! ip'
      = Api.failedAttempts s !! ip').
Proof.
  split.
  - intros nc ns nl ctx a ip' fa fa' Hne.
    assert (Hcases : fa' !! ip' = fa !! ip'
              \/ fa' !! ip' = (if Auth.maxRecords <=? Z.of_nat (size fa)
                               then Auth.sweepExpired ns fa else fa) !! ip').
    { subst fa'. unfold Auth.authorize. cbv zeta.
      destruct (Auth.isLocked _ _ _); [by left|].
      pose proof (recordFailedAttempt_other ns nl (Auth.getClientIP ctx) a ip' Hne)
        as Hrec.
      destruct (Auth.incoming_md ctx) as [md|]; [|by right].
      destruct (Auth.md_Get md "authorization") as [|v vs]; [by right|].
      destruct (negb _).
      - destruct (Auth.recordFailedAttempt _ _ _ _) as [a1 []]; by right.
      - left. simpl. by rewrite lookup_delete_ne. }
    split; [|split].
    + intros Hroom. destruct Hcases as [-> | ->]; [done|].
      by rewrite (proj2 (Z.leb_gt _ _) Hroom).
    + intros info. destruct Hcases as [-> | ->]; [done|].
      destruct (Auth.maxRecords <=? _); [|done].
      rewrite lookup_sweepExpired. destruct (fa !! ip') as [v|]; [|done].
      by destruct (After ns _).
    + intros info Hi Hrun. destruct Hcases as [-> | ->]; [done|].
      destruct (Auth.maxRecords <=? _); [|done].
      rewrite lookup_sweepExpired, Hi. unfold After.
      by rewrite (proj2 (Z.ltb_ge _ _) Hrun).
  - intros next nc na nl w r s ip' Hne. unfold Api.authMiddleware. cbv zeta.
    destruct (match Api.failedAttempts s !! Api.RemoteAddr r with
              | Some info => Before nc (Api.lockedUntil info)
              | None => false end); [done|].
    assert (Hrec : Api.failedAttempts
                     (Api.recordAPIFailedAttempt na nl (Api.RemoteAddr r) s) !! ip'
                   = Api.failedAttempts s !! ip').
    { rewrite api_recordAPIFailedAttempt. simpl. by rewrite lookup_insert_ne. }
    destruct (String.eqb _ ""); [done|].
    destruct (negb _); [done|]. simpl. by rewrite lookup_delete_ne.
Qed.

(** ** What a full table does to the caller's own record *)

(** X12. When the table is full and the lock of the caller's own record
    has passed, the sweep of [recordFailedAttempt] deletes that record and
    the failure is counted from the start: the call returns false and the
    record holds a count of one and no lock, whatever the count was. *)
Theorem full_table_restarts_the_count ns nl ip a info :
  let r := Auth.recordFailedAttempt ns nl ip a in
  Z.of_nat (size (Auth.failedAttempts a)) = Auth.maxRecords ->
  Auth.failedAttempts a !! ip = Some info ->
  Auth.lockedUntil info < ns ->
  r.2 = false
  /\ Auth.failedAttempts r.1 !! ip
     = Some {| Auth.count := 1; Auth.lockedUntil := 0 |}.
Proof.
  intros r Hfull Hi Hexp. subst r.
  set (swept := Auth.sweepExpired ns (Auth.failedAttempts a)).
  assert (Hgone : swept !! ip = None).
  { subst swept. rewrite lookup_sweepExpired, Hi. unfold After.
    by rewrite (proj2 (Z.ltb_lt _ _) Hexp). }
  assert (Hsub : swept ⊆ delete ip (Auth.failedAttempts a)).
  { apply map_subseteq_spec. intros k v Hk.
    destruct (decide (k = ip)) as [->|Hne]; [congruence|].
    rewrite lookup_delete_ne by done. subst swept.
    rewrite lookup_sweepExpired in Hk.
    destruct (Auth.failedAttempts a !! k) as [x|]; [|done].
    by destruct (After ns _). }
  apply map_subseteq_size in Hsub.
  rewrite map_size_delete_Some in Hsub by by eexists.
  assert (Hf : (Auth.maxRecords <=? Z.of_nat (size (Auth.failedAttempts a))) = true)
    by (apply Z.leb_le; lia).
  rewrite (recordFailedAttempt_counted _ _ _ a swept).
  - simpl. rewrite lookup_insert_eq, Hgone. done.
  - by rewrite Hf.
  - rewrite Hf. simpl. apply Z.leb_gt.
    assert (size (Auth.failedAttempts a) <> 0%nat).
    { intros H0. apply map_size_empty_inv in H0. rewrite H0 in Hi.
      by rewrite lookup_empty in Hi. }
    lia.
Qed.

(** ** The shape of the records *)

Lemma records_wellformed_shrink n m (fa fa' : gmap string Auth.attemptInfo) :
  n <= m ->
  (forall k v, fa' !! k = Some v -> fa !! k = Some v) ->
  records_wellformed n fa -> records_wellformed m fa'.
Proof.
  intros Hnm Hsub Hwf ip info Hi. destruct (Hwf ip info (Hsub _ _ Hi)). lia.
Qed.

Lemma sweepExpired_lookup_Some now (fa : gmap string Auth.attemptInfo) k v :
  Auth.sweepExpired now fa !! k = Some v -> fa !! k = Some v.
Proof.
  rewrite lookup_sweepExpired. destruct (fa !! k) as [x|]; [|done].
  by destruct (After now _).
Qed.

Lemma cleanupSweep_lookup_Some now (fa : gmap string Auth.attemptInfo) k v :
  Auth.cleanupSweep now fa !! k = Some v -> fa !! k = Some v.
Proof.
  rewrite lookup_cleanupSweep. destruct (fa !! k) as [x|]; [|done].
  by destruct (_ || _).
Qed.

Lemma recordFailedAttempt_wellformed n ns nl ip a :
  0 <= n < 2 ^ 63 - 1 ->
  records_wellformed n (Auth.failedAttempts a) ->
  records_wellformed (n + 1)
    (Auth.failedAttempts (Auth.recordFailedAttempt ns nl ip a).1).
Proof.
  intros Hn Hwf.
  set (fa1 := if Auth.maxRecords <=? Z.of_nat (size (Auth.failedAttempts a))
              then Auth.sweepExpired ns (Auth.failedAttempts a)
              else Auth.failedAttempts a).
  assert (Hwf1 : records_wellformed n fa1).
  { subst fa1. destruct (Auth.maxRecords <=? _); [|done].
    eapply records_wellformed_shrink; [reflexivity| |exact Hwf].
    apply sweepExpired_lookup_Some. }
  destruct ((Auth.maxRecords <=? Z.of_nat (size (Auth.failedAttempts a)))
            && (Auth.maxRecords <=? Z.of_nat (size fa1))) eqn:Hgo.
  - apply andb_true_iff in Hgo as [H1 H2]. subst fa1. rewrite H1 in H2, Hwf1.
    apply Z.leb_le in H1, H2. rewrite recordFailedAttempt_dropped by done.
    simpl. eapply records_wellformed_shrink; [|by eauto|exact Hwf1]. lia.
  - rewrite (recordFailedAttempt_counted _ _ _ _ fa1 eq_refl Hgo). simpl.
    intros k info. destruct (decide (k = ip)) as [->|Hne].
    + rewrite lookup_insert_eq. intros [= <-]. unfold bumped.
      destruct (fa1 !! ip) as [old|] eqn:E; simpl.
      * destruct (Hwf1 ip old E) as [Hc Hl].
        rewrite wrap_int_small by lia. split; [lia|].
        destruct (Auth.MaxFailedAttempts <=? Auth.count old + 1) eqn:E5.
        -- intros _. by apply Z.leb_le.
        -- intros Hl'. specialize (Hl Hl'). lia.
      * change (wrap_int (0 + 1)) with 1. split; [lia|]. done.
    + rewrite lookup_insert_ne by done. intros Hk.
      destruct (Hwf1 k info Hk). lia.
Qed.

Lemma step_wellformed n a e :
  0 <= n < 2 ^ 63 - 1 ->
  records_wellformed n (Auth.failedAttempts a) ->
  records_wellformed (n + 1) (Auth.failedAttempts (Auth.step a e)).
Proof.
  intros Hn Hwf. destruct e as [nc ns nl ctx|now]; simpl.
  - pose proof (recordFailedAttempt_wellformed n ns nl (Auth.getClientIP ctx) a
                  Hn Hwf) as Hrec.
    assert (Hsame : records_wellformed (n + 1) (Auth.failedAttempts a))
      by (eapply records_wellformed_shrink; [|by eauto|exact Hwf]; lia).
    unfold Auth.authorize. cbv zeta.
    destruct (Auth.isLocked _ _ _); [done|].
    destruct (Auth.incoming_md ctx) as [md|]; [|done].
    destruct (Auth.md_Get md "authorization") as [|v vs]; [done|].
    destruct (negb _).
    + by destruct (Auth.recordFailedAttempt _ _ _ _) as [a1 []].
    + simpl. eapply records_wellformed_shrink; [| |exact Hwf]; [lia|].
      intros k v' Hk. apply lookup_delete_Some in Hk. tauto.
  - eapply records_wellformed_shrink; [| |exact Hwf]; [lia|].
    apply cleanupSweep_lookup_Some.
Qed.

Lemma run_wellformed es : forall n a,
  0 <= n -> n + Z.of_nat (length es) < 2 ^ 63 ->
  records_wellformed n (Auth.failedAttempts a) ->
  records_wellformed (n + Z.of_nat (length es))
    (Auth.failedAttempts (Auth.run es a)).
Proof.
  induction es as [|e es IH]; intros n a Hn Hlen Hwf.
  - simpl. by rewrite Z.add_0_r.
  - simpl length in *.
    replace (n + Z.of_nat (S (length es))) with (n + 1 + Z.of_nat (length es)) by lia.
    apply IH; [lia|lia|]. apply step_wellformed; [lia|done].
Qed.

(** X11. In every table reachable from [NewAuthInterceptor] a record
    holds a count of at least one and at most the number of events so
    far; a record that carries a lock time has reached the threshold of
    five, and a record below the threshold is not locked. *)
Theorem reachable_records_are_wellformed `{Auth.GoLib} entropy tok es ip info :
  Z.of_nat (length es) < 2 ^ 63 ->
  Auth.failedAttempts (Auth.run es (Auth.NewAuthInterceptor entropy tok)) !! ip
    = Some info ->
  1 <= Auth.count info <= Z.of_nat (length es)
  /\ (Auth.lockedUntil info <> 0 -> Auth.MaxFailedAttempts <= Auth.count info)
  /\ (Auth.count info < Auth.MaxFailedAttempts ->
      forall now, 0 <= now ->
        Auth.isLocked now ip (Auth.run es (Auth.NewAuthInterceptor entropy tok))
        = false).
Proof.
  intros Hlen Hi.
  pose proof (run_wellformed es 0 (Auth.NewAuthInterceptor entropy tok)
                ltac:(lia) ltac:(lia)) as Hwf.
  assert (Hwf0 : records_wellformed 0
            (Auth.failedAttempts (Auth.NewAuthInterceptor entropy tok))).
  { intros k v Hk. simpl in Hk. by rewrite lookup_empty in Hk. }
  destruct (Hwf Hwf0 ip info Hi) as [Hc Hl].
  split; [lia|]. split; [done|].
  intros Hlow now Hnow. unfold Auth.isLocked, Before. rewrite Hi.
  destruct (decide (Auth.lockedUntil info = 0)) as [->|Hne].
  - by rewrite (proj2 (Z.ltb_ge now 0) Hnow).
  - specialize (Hl Hne). lia.
Qed.

(** ** Five failures lock a peer out of the REST interface *)

Lemma api_strikes_unlocked ip n last s now :
  api_strikes ip n last s -> 0 <= now -> api_locked now ip s = false.
Proof.
  unfold api_strikes, api_locked, Before. intros Hs Hnow.
  destruct (decide (n = 0)); rewrite Hs; [done|]. simpl.
  by apply Z.ltb_ge.
Qed.

Lemma api_step_fails next ip n last s e :
  api_strikes ip n last s -> 0 <= n < 2 ^ 62 ->
  api_fails_from (Api.token s) ip e ->
  exists nc na nl w r, e = ApiRequest nc na nl w r /\
    api_step next s e =
      Api.with_failedAttempts s
        (<[ip := {| Api.count := n + 1;
                    Api.lockedUntil := if 5 <=? n + 1
                                       then Add nl (15 * Minute) else 0;
                    Api.lastAttempt := na |}]> (Api.failedAttempts s)).
Proof.
  intros Hs Hn Hf. destruct e as [nc na nl w r|]; [|done].
  destruct Hf as (Hip & Hnc & Hbad). exists nc, na, nl, w, r. split; [done|].
  pose proof (api_strikes_unlocked ip n last s nc Hs Hnc) as Hun.
  unfold api_locked in Hun. rewrite <- Hip in Hun.
  assert (Hst : api_step next s (ApiRequest nc na nl w r)
                = Api.recordAPIFailedAttempt na nl (Api.RemoteAddr r) s).
  { unfold api_step, Api.authMiddleware. cbv zeta. rewrite Hun.
    destruct (String.eqb (Api.Header_Get r "Authorization") "") eqn:Ee; [done|].
    apply String.eqb_neq in Ee. destruct Hbad as [Hbad|Hbad]; [done|].
    apply ConstantTimeCompare_neq in Hbad. by rewrite Hbad. }
  rewrite Hst, api_recordAPIFailedAttempt, Hip. cbv zeta. f_equal. f_equal.
  unfold api_strikes in Hs. destruct (decide (n = 0)) as [->|Hn0]; rewrite Hs.
  - done.
  - simpl. rewrite wrap_int_small by lia. done.
Qed.

Lemma api_strike_once next ip n last s e :
  api_strikes ip n last s -> 0 <= n < 4 ->
  api_fails_from (Api.token s) ip e ->
  api_strikes ip (n + 1) (api_attempt_time e) (api_step next s e)
  /\ Api.token (api_step next s e) = Api.token s.
Proof.
  intros Hs Hn Hf.
  destruct (api_step_fails next ip n last s e Hs ltac:(lia) Hf)
    as (nc & na & nl & w & r & -> & ->).
  rewrite (proj2 (Z.leb_gt 5 (n + 1))) by lia. split; [|done].
  unfold api_strikes. rewrite decide_False by lia. simpl.
  by rewrite lookup_insert_eq.
Qed.

Lemma api_pass_keeps ip (info : Api.apiAttemptInfo) s now :
  Api.failedAttempts s !! ip = Some info ->
  now <= Api.lockedUntil info \/ now - Api.lastAttempt info <= 30 * Minute ->
  Api.failedAttempts (Api.cleanupLoop [now] s) !! ip = Some info.
Proof.
  intros Hi Hkeep. simpl. rewrite api_lookup_cleanupSweep, Hi.
  destruct (After now (Api.lockedUntil info)
            && (30 * Minute <? Sub now (Api.lastAttempt info))) eqn:E; [|done].
  apply andb_true_iff in E as [E1%Z.ltb_lt E2%Z.ltb_lt].
  destruct Hkeep; clock_arith.
Qed.

Lemma api_passes_keep next ip n last es s :
  api_strikes ip n last s -> 0 < n -> api_passes_by last es ->
  api_strikes ip n last (api_run next es s)
  /\ Api.token (api_run next es s) = Api.token s.
Proof.
  intros Hs Hn Hes. revert s Hs.
  induction Hes as [|e es He Hes IH]; intros s Hs; [done|].
  destruct e as [|now]; [done|].
  change (api_run next (ApiTick now :: es) s)
    with (api_run next es (Api.cleanupLoop [now] s)).
  unfold api_strikes in Hs. rewrite decide_False in Hs by lia.
  destruct (IH (Api.cleanupLoop [now] s)) as [H1 H2].
  - unfold api_strikes. rewrite decide_False by lia.
    apply api_pass_keeps; [done|]. right. done.
  - split; [done|]. by rewrite H2.
Qed.

Lemma api_run_app next es1 es2 s :
  api_run next (es1 ++ es2) s = api_run next es2 (api_run next es1 s).
Proof. apply foldl_app. Qed.

(** X7. The REST middleware locks an address after five failures in a
    row, with no condition on the size of the table, provided that no
    cleanup pass between two of them comes more than thirty minutes after
    the earlier one (such a pass deletes the record, and the count starts
    anew).  The address is locked exactly until fifteen minutes after the
    fifth failure; until then every request from it, the right token
    included, is answered 429 with Retry-After: 900 and leaves the server
    unchanged; and a cleanup pass that comes before the lock ends, or
    within thirty minutes of the fifth failure, keeps the record. *)
Theorem api_lockout_after_five_failures next s ip f1 f2 f3 f4 g1 g2 g3 g4
    nc na nl w r :
  let f5 := ApiRequest nc na nl w r in
  let es := f1 :: g1 ++ f2 :: g2 ++ f3 :: g3 ++ f4 :: g4 ++ [f5] in
  let s5 := api_run next es s in
  let until := Add nl (15 * Minute) in
  Api.failedAttempts s !! ip = None ->
  Forall (api_fails_from (Api.token s) ip) [f1; f2; f3; f4; f5] ->
  api_passes_by (api_attempt_time f1) g1 ->
  api_passes_by (api_attempt_time f2) g2 ->
  api_passes_by (api_attempt_time f3) g3 ->
  api_passes_by (api_attempt_time f4) g4 ->
  (forall now, api_locked now ip s5 = true <-> now < until)
  /\ (forall next' now na' nl' w' r',
        Api.RemoteAddr r' = ip -> now < until ->
        Api.authMiddleware next' now na' nl' w' r' s5
        = (s5, Api.jsonError "Too many failed attempts" Api.StatusTooManyRequests
                 (Api.Header_Set "Retry-After" "900" w')))
  /\ (forall t, t <= until \/ t - na <= 30 * Minute ->
        Api.failedAttempts (api_step next s5 (ApiTick t)) !! ip
        = Api.failedAttempts s5 !! ip).
Proof.
  intros f5 es s5 until H0 Hall G1 G2 G3 G4.
  apply Forall_cons in Hall as [F1 Hall]. apply Forall_cons in Hall as [F2 Hall].
  apply Forall_cons in Hall as [F3 Hall]. apply Forall_cons in Hall as [F4 Hall].
  apply Forall_cons in Hall as [F5 _].
  assert (S0 : api_strikes ip 0 0 s) by done.
  destruct (api_strike_once next ip 0 0 s f1 S0 ltac:(lia) F1) as (S1 & T1).
  destruct (api_passes_keep next ip 1 _ g1 _ S1 ltac:(lia) G1) as (S1' & T1').
  rewrite T1 in T1'. rewrite <- T1' in F2.
  destruct (api_strike_once next ip 1 _ _ f2 S1' ltac:(lia) F2) as (S2 & T2).
  destruct (api_passes_keep next ip 2 _ g2 _ S2 ltac:(lia) G2) as (S2' & T2').
  rewrite T2, T1' in T2'. rewrite <- T2' in F3.
  destruct (api_strike_once next ip 2 _ _ f3 S2' ltac:(lia) F3) as (S3 & T3).
  destruct (api_passes_keep next ip 3 _ g3 _ S3 ltac:(lia) G3) as (S3' & T3').
  rewrite T3, T2' in T3'. rewrite <- T3' in F4.
  destruct (api_strike_once next ip 3 _ _ f4 S3' ltac:(lia) F4) as (S4 & T4).
  destruct (api_passes_keep next ip 4 _ g4 _ S4 ltac:(lia) G4) as (S4' & T4').
  rewrite T4, T3' in T4'. rewrite <- T4' in F5.
  destruct (api_step_fails next ip 4 _ _ _ S4' ltac:(lia) F5)
    as (nc' & na' & nl' & w' & r' & Heq & Hstep).
  injection Heq as <- <- <- <- <-.
  assert (Hrec : Api.failedAttempts s5 !! ip
                 = Some {| Api.count := 5; Api.lockedUntil := until;
                           Api.lastAttempt := na |}).
  { subst s5 es.
    change (api_run next (f1 :: ?l) s) with (api_run next l (api_step next s f1)).
    rewrite api_run_app.
    change (api_run next (f2 :: ?l) ?x) with (api_run next l (api_step next x f2)).
    rewrite api_run_app.
    change (api_run next (f3 :: ?l) ?x) with (api_run next l (api_step next x f3)).
    rewrite api_run_app.
    change (api_run next (f4 :: ?l) ?x) with (api_run next l (api_step next x f4)).
    rewrite api_run_app.
    change (api_run next [f5] ?x) with (api_step next x f5).
    subst f5. rewrite Hstep. simpl. by rewrite lookup_insert_eq. }
  assert (Hlock : forall now, api_locked now ip s5 = true <-> now < until).
  { intros now. unfold api_locked, Before. rewrite Hrec. simpl. apply Z.ltb_lt. }
  split; [done|]. split.
  - intros next' now na'' nl'' w'' r'' Hip Hnow. unfold Api.authMiddleware. cbv zeta.
    rewrite Hip.
    change (match Api.failedAttempts s5 !! ip with
            | Some info => Before now (Api.lockedUntil info)
            | None => false
            end) with (api_locked now ip s5).
    by rewrite (proj2 (Hlock now) Hnow).
  - intros t Ht. rewrite Hrec. apply api_pass_keeps; [done|]. exact Ht.
Qed.

(** ** The routes of the REST interface *)

(** X18. [RegisterRoutes] registers exactly five patterns.  /api/health
    and /api/version reach their handlers with no check and without
    touching the server; /api/system, /api/metrics and /api/processes
    reach theirs only through [authMiddleware].  Every handler runs
    behind [securityHeaders], so also each rejection of the middleware,
    429 or 401, carries X-Content-Type-Options: nosniff, X-Frame-Options:
    DENY, the JSON content type and an error body. *)
Theorem routes_and_their_guards hH hV hS hM hP :
  let routes := Api.RegisterRoutes hH hV hS hM hP in
  (forall p, is_Some (routes !! p) <->
     p = "/api/health" \/ p = "/api/version" \/ p = "/api/system"
     \/ p = "/api/metrics" \/ p = "/api/processes")
  /\ open_to_all routes "/api/health" hH
  /\ open_to_all routes "/api/version" hV
  /\ guarded_by_auth routes "/api/system" hS
  /\ guarded_by_auth routes "/api/metrics" hM
  /\ guarded_by_auth routes "/api/processes" hP
  /\ (forall h nc na nl w r s,
        let out := Api.authMiddleware h nc na nl (hardened w) r s in
        api_locked nc (Api.RemoteAddr r) s = true
        \/ Api.Header_Get r "Authorization" = ""
        \/ TrimPrefix (Api.Header_Get r "Authorization") "Bearer " <> Api.token s ->
        (Api.StatusCode out.2 = Some Api.StatusTooManyRequests
         \/ Api.StatusCode out.2 = Some Api.StatusUnauthorized)
        /\ Api.Header out.2 !! "X-Content-Type-Options" = Some "nosniff"
        /\ Api.Header out.2 !! "X-Frame-Options" = Some "DENY"
        /\ Api.Header out.2 !! "Content-Type" = Some "application/json"
        /\ exists message,
             Api.Body out.2 = Some {| Api.Success := false; Api.Error := message |}).
Proof.
  intros routes. split; [|split_and!].
  - intros p. subst routes. unfold Api.RegisterRoutes. cbv zeta.
    rewrite !lookup_insert_is_Some', lookup_empty, is_Some_alt. intuition congruence.
  - eexists. split; [|done]. subst routes. unfold Api.RegisterRoutes. cbv zeta.
    rewrite !lookup_insert_ne by done. by rewrite lookup_insert_eq.
  - eexists. split; [|done]. subst routes. unfold Api.RegisterRoutes. cbv zeta.
    rewrite !lookup_insert_ne by done. by rewrite lookup_insert_eq.
  - eexists. split; [|done]. subst routes. unfold Api.RegisterRoutes. cbv zeta.
    rewrite !lookup_insert_ne by done. by rewrite lookup_insert_eq.
  - eexists. split; [|done]. subst routes. unfold Api.RegisterRoutes. cbv zeta.
    rewrite !lookup_insert_ne by done. by rewrite lookup_insert_eq.
  - eexists. split; [|done]. subst routes. unfold Api.RegisterRoutes. cbv zeta.
    by rewrite lookup_insert_eq.
  - intros h nc na nl w r s out Hbad. subst out.
    unfold Api.authMiddleware. cbv zeta.
    change (match Api.failedAttempts s !! Api.RemoteAddr r with
            | Some info => Before nc (Api.lockedUntil info)
            | None => false
            end) with (api_locked nc (Api.RemoteAddr r) s).
    assert (Hhead : forall msg code w0,
      Api.Header w0 !! "X-Content-Type-Options" = Some "nosniff" ->
      Api.Header w0 !! "X-Frame-Options" = Some "DENY" ->
      (Api.StatusCode (Api.jsonError msg code w0) = Some code)
      /\ Api.Header (Api.jsonError msg code w0) !! "X-Content-Type-Options"
         = Some "nosniff"
      /\ Api.Header (Api.jsonError msg code w0) !! "X-Frame-Options" = Some "DENY"
      /\ Api.Header (Api.jsonError msg code w0) !! "Content-Type"
         = Some "application/json"
      /\ exists message, Api.Body (Api.jsonError msg code w0)
           = Some {| Api.Success := false; Api.Error := message |}).
    { intros msg code w0 H1 H2. simpl. split; [done|].
      rewrite !lookup_insert_ne by done. rewrite lookup_insert_eq.
      split_and!; try done. by eexists. }
    assert (H1 : Api.Header (hardened w) !! "X-Content-Type-Options" = Some "nosniff").
    { simpl. rewrite lookup_insert_ne by done. by rewrite lookup_insert_eq. }
    assert (H2 : Api.Header (hardened w) !! "X-Frame-Options" = Some "DENY").
    { simpl. by rewrite lookup_insert_eq. }
    destruct (api_locked nc (Api.RemoteAddr r) s) eqn:El.
    + destruct (Hhead "Too many failed attempts"%string Api.StatusTooManyRequests
                  (Api.Header_Set "Retry-After" "900" (hardened w))) as (?&?&?&?&?).
      * simpl. rewrite lookup_insert_ne by done.
        rewrite lookup_insert_ne by done. by rewrite lookup_insert_eq.
      * simpl. rewrite lookup_insert_ne by done. by rewrite lookup_insert_eq.
      * simpl snd. split_and!; auto.
    + destruct Hbad as [Hbad|[Hbad|Hbad]]; [done| |].
      * rewrite Hbad. simpl String.eqb. cbv iota. simpl snd.
        destruct (Hhead "Missing authorization header"%string
                    Api.StatusUnauthorized (hardened w) H1 H2) as (?&?&?&?&?).
        split_and!; auto.
      * destruct (String.eqb _ ""); simpl snd.
        -- destruct (Hhead "Missing authorization header"%string
                       Api.StatusUnauthorized (hardened w) H1 H2) as (?&?&?&?&?).
           split_and!; auto.
        -- apply ConstantTimeCompare_neq in Hbad. rewrite Hbad. simpl snd.
           destruct (Hhead "Invalid token"%string
                       Api.StatusUnauthorized (hardened w) H1 H2) as (?&?&?&?&?).
           split_and!; auto.
Qed.

(** ** The session registry *)

(** X15. After [RevokeSession] the token is unknown to
    [ValidateSession], every other token is looked up as before, and the
    number of sessions drops by one exactly when the token was there;
    revoking an unknown token changes nothing.  After [RevokeAllSessions]
    there is no session and no token is known. *)
Theorem revoked_sessions_are_gone :
  (forall now tok sm,
      Auth.ValidateSession now tok (Auth.RevokeSession tok sm)
      = (Auth.RevokeSession tok sm, (None, None)))
  /\ (forall tok tok' sm,
      tok' <> tok ->
      Auth.GetSessionInfo tok' (Auth.RevokeSession tok sm)
      = Auth.GetSessionInfo tok' sm)
  /\ (forall tok sm,
      Auth.GetActiveSessions (Auth.RevokeSession tok sm)
      = Auth.GetActiveSessions sm
        - match Auth.sessions sm !! tok with Some _ => 1 | None => 0 end)
  /\ (forall tok sm,
      Auth.sessions sm !! tok = None -> Auth.RevokeSession tok sm = sm)
  /\ (forall now tok sm,
      Auth.GetActiveSessions (Auth.RevokeAllSessions sm) = 0
      /\ Auth.ValidateSession now tok (Auth.RevokeAllSessions sm)
         = (Auth.RevokeAllSessions sm, (None, None))).
Proof.
  split_and!.
  - intros now tok sm. unfold Auth.ValidateSession. simpl.
    by rewrite lookup_delete_eq.
  - intros tok tok' sm Hne. unfold Auth.GetSessionInfo. simpl.
    by rewrite lookup_delete_ne.
  - intros tok sm. unfold Auth.GetActiveSessions. simpl.
    destruct (Auth.sessions sm !! tok) as [p|] eqn:E.
    + rewrite map_size_delete_Some by by eexists.
      assert (size (Auth.sessions sm) <> 0%nat).
      { intros H0. apply map_size_empty_inv in H0. rewrite H0 in E.
        by rewrite lookup_empty in E. }
      lia.
    + rewrite map_size_delete_None by done. lia.
  - intros tok sm Hn. unfold Auth.RevokeSession. rewrite delete_id by done.
    by destruct sm.
  - intros now tok sm. split.
    + unfold Auth.GetActiveSessions. simpl. by rewrite map_size_empty.
    + unfold Auth.ValidateSession. simpl. by rewrite lookup_empty.
Qed.

Lemma fresh_not_in_heap (sm : Auth.SessionManager) p (s : Auth.SessionInfo) :
  Auth.heap sm !! p = Some s -> fresh (dom (Auth.heap sm)) <> p.
Proof.
  intros Hp Heq. pose proof (is_fresh (dom (Auth.heap sm))) as Hf.
  rewrite Heq in Hf. apply Hf. apply elem_of_dom. by eexists.
Qed.

(** X16. [CreateSession] for a token that already has a session makes a
    new object and points the token to it: the number of sessions stays
    the same, the new session starts at the time of the call with the new
    address, and the object handed out before is neither changed by the
    call nor by a later [ValidateSession]. *)
Theorem a_second_CreateSession_starts_anew t0 t1 tok ip sm p0 s0 :
  let '(sm1, p1) := Auth.CreateSession t0 tok ip sm in
  let sm2 := (Auth.ValidateSession t1 tok sm1).1 in
  Auth.sessions sm !! tok = Some p0 ->
  Auth.heap sm !! p0 = Some s0 ->
  p1 <> p0
  /\ Auth.GetSessionInfo tok sm1 = Some p1
  /\ Auth.heap sm1 !! p1
     = Some {| Auth.session_Token := tok; Auth.ClientIP := ip;
               Auth.CreatedAt := t0; Auth.LastUsed := t0 |}
  /\ Auth.GetActiveSessions sm1 = Auth.GetActiveSessions sm
  /\ Auth.heap sm1 !! p0 = Some s0
  /\ Auth.heap sm2 !! p0 = Some s0.
Proof.
  unfold Auth.CreateSession. cbv zeta. intros Hs Hh.
  pose proof (fresh_not_in_heap sm p0 s0 Hh) as Hne.
  split_and!.
  - done.
  - unfold Auth.GetSessionInfo. simpl. by rewrite lookup_insert_eq.
  - simpl. by rewrite lookup_insert_eq.
  - unfold Auth.GetActiveSessions. simpl.
    rewrite map_size_insert_Some by by eexists. done.
  - simpl. by rewrite lookup_insert_ne.
  - unfold Auth.ValidateSession. simpl. rewrite lookup_insert_eq. simpl.
    rewrite lookup_alter_ne by done. by rewrite lookup_insert_ne.
Qed.

Lemma session_step_wellformed c sm :
  sessions_wellformed sm -> sessions_wellformed (Auth.session_step c sm).
Proof.
  intros Hwf. destruct c as [now tok ip|now tok|tok| | |]; simpl.
  - intros tok' p. simpl. destruct (decide (tok = tok')) as [->|Hne].
    + rewrite lookup_insert_eq. intros [= <-]. rewrite lookup_insert_eq.
      by eexists.
    + rewrite lookup_insert_ne by done. intros Hp.
      destruct (Hwf tok' p Hp) as (s & Hs & Ht). exists s. split; [|done].
      rewrite lookup_insert_ne; [done|]. by eapply fresh_not_in_heap.
  - unfold Auth.ValidateSession.
    destruct (Auth.sessions sm !! tok) as [q|] eqn:E; [|done].
    intros tok' p. simpl. intros Hp.
    destruct (Hwf tok' p Hp) as (s & Hs & Ht).
    destruct (decide (q = p)) as [->|Hne].
    + rewrite lookup_alter_eq, Hs. simpl. by eexists.
    + rewrite lookup_alter_ne by done. by eexists.
  - intros tok' p. simpl. intros Hp. apply lookup_delete_Some in Hp as [_ Hp].
    by apply Hwf.
  - intros tok' p. simpl. by rewrite lookup_empty.
  - done.
  - done.
Qed.

(** X17. In every registry reachable from [NewSessionManager] a token
    points to an object that holds that token, no two tokens share an
    object, and the session that [ValidateSession] returns is the one of
    the token asked for, with [LastUsed] set to the time of the call. *)
Theorem sessions_point_to_their_own_object h cs :
  let sm := session_run cs (Auth.NewSessionManager h) in
  (forall tok p,
      Auth.GetSessionInfo tok sm = Some p ->
      exists s, Auth.heap sm !! p = Some s /\ Auth.session_Token s = tok)
  /\ (forall tok tok' p,
      Auth.GetSessionInfo tok sm = Some p ->
      Auth.GetSessionInfo tok' sm = Some p -> tok = tok')
  /\ (forall now tok p,
      (Auth.ValidateSession now tok sm).2.1 = Some p ->
      exists s, Auth.heap (Auth.ValidateSession now tok sm).1 !! p = Some s
                /\ Auth.session_Token s = tok /\ Auth.LastUsed s = now).
Proof.
  intros sm.
  assert (Hwf : sessions_wellformed sm).
  { subst sm. unfold session_run.
    assert (H0 : sessions_wellformed (Auth.NewSessionManager h))
      by (intros tok p Hp; simpl in Hp; by rewrite lookup_empty in Hp).
    revert H0. generalize (Auth.NewSessionManager h).
    induction cs as [|c cs IH]; intros sm0 H0; [done|].
    simpl. apply IH. by apply session_step_wellformed. }
  split_and!.
  - exact Hwf.
  - intros tok tok' p H1 H2.
    destruct (Hwf tok p H1) as (s & Hs & Ht).
    destruct (Hwf tok' p H2) as (s' & Hs' & Ht'). congruence.
  - intros now tok p. unfold Auth.ValidateSession.
    destruct (Auth.sessions sm !! tok) as [q|] eqn:E; [|done].
    simpl. intros [= ->]. destruct (Hwf tok p E) as (s & Hs & Ht).
    rewrite lookup_alter_eq, Hs. simpl. by eexists.
Qed.

(** ** Which tokens [ValidateSignedToken] accepts *)

Lemma SplitN2_inv s sep :
  (has_byte sep s = false /\ Auth.SplitN2 s sep = [s])
  \/ (exists p q, s = p +:+ String sep q /\ has_byte sep p = false
                  /\ Auth.SplitN2 s sep = [p; q]).
Proof.
  induction s as [|c s IH]; simpl; [by left|].
  destruct (Ascii.eqb c sep) eqn:E.
  - apply Ascii.eqb_eq in E as ->. right. exists ""%string, s. done.
  - destruct IH as [[Hn ->]|(p & q & -> & Hp & ->)].
    + by left.
    + right. exists (String c p), q. simpl. by rewrite E.
Qed.

(** X13. [ValidateSignedToken] accepts exactly the tokens made of a
    payload segment without a dot, a dot, and the encoded tag of that
    segment under the key, where the segment decodes and the decoded
    bytes parse as claims.  A token without a dot is an "invalid token
    format", and every error is one of four messages. *)
Theorem ValidateSignedToken_accepts_exactly `{Auth.GoLib} token key :
  (Auth.ValidateSignedToken token key = None <->
     exists payloadB64 payload claims,
       has_byte "." payloadB64 = false
       /\ token = payloadB64 +:+ "." +:+
                  Auth.base64_EncodeToString (Auth.hmac_sha256 key payloadB64)
       /\ Auth.base64_DecodeString payloadB64 = Some payload
       /\ Auth.json_Unmarshal payload = Some claims)
  /\ (has_byte "." token = false ->
      Auth.ValidateSignedToken token key = Auth.fmt_Errorf "invalid token format")
  /\ (Auth.ValidateSignedToken token key = None
      \/ exists msg, Auth.ValidateSignedToken token key = Auth.fmt_Errorf msg
           /\ (msg = "invalid token format" \/ msg = "invalid token signature"
               \/ msg = "invalid token payload" \/ msg = "invalid token claims")).
Proof.
  destruct (SplitN2_inv token ".") as [[Hn Hs]|(p & q & -> & Hp & Hs)].
  - assert (Hv : Auth.ValidateSignedToken token key
                 = Auth.fmt_Errorf "invalid token format").
    { unfold Auth.ValidateSignedToken. by rewrite Hs. }
    split_and!.
    + rewrite Hv. split; [done|]. intros (p & payload & c & Hp & -> & _).
      rewrite has_byte_app in Hn. simpl in Hn.
      by rewrite orb_true_r in Hn.
    + done.
    + right. eexists. split; [exact Hv|]. by left.
  - rewrite (ValidateSignedToken_parts _ _ p q Hs). split_and!.
    + destruct (String.eqb q _) eqn:E.
      * apply String.eqb_eq in E as ->.
        destruct (Auth.base64_DecodeString p) as [payload|] eqn:Ed.
        -- destruct (Auth.json_Unmarshal payload) as [c|] eqn:Ej.
           ++ split; [|done]. intros _. by exists p, payload, c.
           ++ split; [done|]. intros (p' & payload' & c' & Hp' & Heq & Hd & Hj).
              assert (p' = p) as ->.
              { pose proof (SplitN2_cut p' (Auth.base64_EncodeToString
                              (Auth.hmac_sha256 key p')) "." Hp') as Hc.
                change (p' +:+ String "." ?x) with (p' +:+ "." +:+ x) in Hc.
                rewrite <- Heq, Hs in Hc. congruence. }
              congruence.
        -- split; [done|]. intros (p' & payload' & c' & Hp' & Heq & Hd & Hj).
           assert (p' = p) as ->.
           { pose proof (SplitN2_cut p' (Auth.base64_EncodeToString
                           (Auth.hmac_sha256 key p')) "." Hp') as Hc.
             change (p' +:+ String "." ?x) with (p' +:+ "." +:+ x) in Hc.
             rewrite <- Heq, Hs in Hc. congruence. }
           congruence.
      * split; [done|]. intros (p' & payload' & c' & Hp' & Heq & Hd & Hj).
        pose proof (SplitN2_cut p' (Auth.base64_EncodeToString
                      (Auth.hmac_sha256 key p')) "." Hp') as Hc.
        change (p' +:+ String "." ?x) with (p' +:+ "." +:+ x) in Hc.
        rewrite <- Heq, Hs in Hc. injection Hc as -> ->.
        by rewrite String.eqb_refl in E.
    + rewrite has_byte_app. simpl. rewrite orb_true_r. done.
    + destruct (String.eqb q _); [|right; eexists; split; [done|]; auto].
      destruct (Auth.base64_DecodeString p) as [payload|];
        [|right; eexists; split; [done|]; auto].
      destruct (Auth.json_Unmarshal payload);
        [by left|right; eexists; split; [done|]; auto].
Qed.

(** ** Generated tokens *)

(** X14. A token made by [GenerateSignedToken] is accepted by
    [ValidateSignedToken] under the same key, whatever the time to live,
    provided the encoding writes no dot, decoding undoes encoding, and
    what [json.Marshal] writes can be parsed back. *)
Theorem generated_token_is_accepted `{Auth.GoLib} now entropy key ttl token :
  (forall s, has_byte "." (Auth.base64_EncodeToString s) = false) ->
  (forall s, Auth.base64_DecodeString (Auth.base64_EncodeToString s) = Some s) ->
  (forall c p, Auth.json_Marshal c = Some p -> is_Some (Auth.json_Unmarshal p)) ->
  Auth.GenerateSignedToken now entropy key ttl = (token, None) ->
  Auth.ValidateSignedToken token key = None.
Proof.
  intros Halpha Hrt Hjson.
  unfold Auth.GenerateSignedToken, Auth.GenerateToken.
  destruct entropy as [bytes|]; [|done].
  destruct (Auth.json_Marshal _) as [payload|] eqn:Em; [|done].
  intros [= <-].
  rewrite (ValidateSignedToken_parts _ _ (Auth.base64_EncodeToString payload)
             (Auth.base64_EncodeToString
                (Auth.hmac_sha256 key (Auth.base64_EncodeToString payload)))).
  - rewrite String.eqb_refl, Hrt.
    by destruct (Hjson _ _ Em) as [c ->].
  - by apply SplitN2_cut.
Qed.

(** X19. [GenerateToken] returns the empty string and the error when
    the random source fails.  Otherwise it returns no error and, as the
    encoding writes two characters per byte, a token of 64 characters,
    which [ValidateToken] accepts. *)
Theorem generated_token_is_long_enough `{Auth.GoLib} entropy :
  (forall s, String.length (Auth.hex_EncodeToString s) = (2 * String.length s)%nat) ->
  match entropy with
  | None => Auth.GenerateToken entropy = ("", Auth.fmt_Errorf "rand.Read")
  | Some bytes =>
      String.length bytes = 32%nat ->
      (Auth.GenerateToken entropy).2 = None
      /\ String.length (Auth.GenerateToken entropy).1 = 64%nat
      /\ Auth.ValidateToken (Auth.GenerateToken entropy).1 = true
  end.
Proof.
  intros Hlen. destruct entropy as [bytes|]; [|done].
  intros H32. simpl. split; [done|]. unfold Auth.ValidateToken.
  rewrite Hlen, H32. done.
Qed.

(** *** The hexadecimal codec obeys the laws *)

Lemma hex_encode_length s : String.length (hex_encode s) = (2 * String.length s)%nat.
Proof. induction s as [|c s IH]; simpl; [done|]. rewrite IH. lia. Qed.

Lemma hex_byte_no_separator c :
  Ascii.eqb (hex_digit (N_of_ascii c / 16)) "." = false
  /\ Ascii.eqb (hex_digit (N_of_ascii c mod 16)) "." = false.
Proof. destruct c as [[] [] [] [] [] [] [] []]; by vm_compute. Qed.

Lemma hex_encode_no_separator s : has_byte "." (hex_encode s) = false.
Proof.
  induction s as [|c s IH]; simpl; [done|].
  destruct (hex_byte_no_separator c) as [-> ->]. done.
Qed.

Lemma hex_byte_round_trip c :
  hex_value (hex_digit (N_of_ascii c / 16)) = Some (N_of_ascii c / 16)%N
  /\ hex_value (hex_digit (N_of_ascii c mod 16)) = Some (N_of_ascii c mod 16)%N
  /\ ascii_of_N (16 * (N_of_ascii c / 16) + N_of_ascii c mod 16) = c.
Proof. destruct c as [[] [] [] [] [] [] [] []]; by vm_compute. Qed.

Lemma hex_round_trip s : hex_decode (hex_encode s) = Some s.
Proof.
  induction s as [|c s IH]; [done|].
  change (hex_encode (String c s)) with
    (String (hex_digit (N_of_ascii c / 16))
       (String (hex_digit (N_of_ascii c mod 16)) (hex_encode s))).
  change (hex_decode (String ?a (String ?b ?t))) with
    (match hex_value a, hex_value b, hex_decode t with
     | Some x, Some y, Some t' => Some (String (ascii_of_N (16 * x + y)) t')
     | _, _, _ => None
     end).
  destruct (hex_byte_round_trip c) as (-> & -> & Hc). by rewrite IH, Hc.
Qed.

Lemma generated_token_is_accepted_witness :
  @Auth.ValidateSignedToken hex_lib
    (@Auth.GenerateSignedToken hex_lib noon
       (Some "0123456789abcdef0123456789abcdef") "key" (60 * Minute)).1 "key"
  = None.
Proof.
  apply (@generated_token_is_accepted hex_lib noon
           (Some "0123456789abcdef0123456789abcdef"%string) "key" (60 * Minute)).
  - exact hex_encode_no_separator.
  - exact hex_round_trip.
  - intros c p _. by eexists.
  - reflexivity.
Defined.

Lemma generated_token_is_long_enough_witness :
  @Auth.ValidateToken
    (@Auth.GenerateToken hex_lib (Some "0123456789abcdef0123456789abcdef")).1
  = true.
Proof.
  apply (@generated_token_is_long_enough hex_lib
           (Some "0123456789abcdef0123456789abcdef"%string)).
  - exact hex_encode_length.
  - reflexivity.
Defined.

Example hex_encode_sample :
  hex_encode "Go" = "476f"%string /\ hex_decode "476F" = Some "Go"%string
  /\ hex_decode "476" = None /\ hex_decode "4g" = None.
Proof. by vm_compute. Qed.

(** ** The further statements on sample data *)

Lemma unary_exempts_one_method_witness :
  Auth.Unary (Some 7%nat, None) "/runixo.AgentService/GetMetrics"
    (noon + 1) noon noon (call_with "correct-token") five_strikes
  = (five_strikes,
     (None, Auth.status_Error Auth.ResourceExhausted "认证失败次数过多，请稍后重试")).
Proof.
  apply (unary_exempts_one_method (Some 7%nat, None) None
           "/runixo.AgentService/GetMetrics" (noon + 1) noon noon
           (call_with "correct-token") five_strikes).
  - vm_compute. reflexivity.
  - discriminate.
Defined.

Lemma configured_token_is_the_secret_witness :
  Auth.authorize noon noon noon (call_with "Bearer k")
    (@Auth.NewAuthInterceptor hex_lib None "k")
  = (@Auth.NewAuthInterceptor hex_lib None "k", None).
Proof.
  apply (@configured_token_is_the_secret hex_lib None "k"); [discriminate|].
  exists "Bearer k"%string. split; [apply presented_call_with|]. by left.
Defined.

Lemma unconfigured_token_is_generated_witness :
  Auth.authorize noon noon noon (call_with "Bearer ")
    (@Auth.NewAuthInterceptor hex_lib None "")
  = (@Auth.NewAuthInterceptor hex_lib None "", None).
Proof.
  apply (@unconfigured_token_is_generated hex_lib None); [reflexivity|].
  right. apply presented_call_with.
Defined.



Lemma expired_lock_relocks_on_one_failure_witness :
  Auth.failedAttempts
    (Auth.authorize (noon + 20 * Minute) noon (noon + 20 * Minute)
       (call_with "wrong") five_strikes).1 !! peer
  = Some {| Auth.count := 5 + 1;
            Auth.lockedUntil := Add (noon + 20 * Minute) Auth.LockoutDuration |}.
Proof.
  apply (expired_lock_relocks_on_one_failure (noon + 20 * Minute) noon
           (noon + 20 * Minute) (call_with "wrong") five_strikes
           {| Auth.count := 5; Auth.lockedUntil := noon + 15 * Minute |}).
  - apply lookup_singleton_eq.
  - vm_compute. split; [discriminate|reflexivity].
  - vm_compute. discriminate.
  - vm_compute. reflexivity.
  - apply wrong_is_not_the_secret.
Defined.

Lemma other_peers_are_left_alone_witness :
  Auth.failedAttempts
    (Auth.authorize noon noon noon
       {| Auth.peer_addr := Some "198.51.100.9:4000";
          Auth.incoming_md := None |} five_strikes).1 !! peer
  = Auth.failedAttempts five_strikes !! peer.
Proof.
  apply (proj1 (proj1 other_peers_are_left_alone noon noon noon
           {| Auth.peer_addr := Some "198.51.100.9:4000"%string;
              Auth.incoming_md := None |} five_strikes peer
           ltac:(discriminate))).
  vm_compute. reflexivity.
Defined.

Lemma wrong_request_fails : api_fails_from secret peer wrong_request.
Proof.
  split; [reflexivity|]. split; [by vm_compute|]. right. by vm_compute.
Qed.

Lemma api_lockout_after_five_failures_witness :
  let s5 := api_run handler
              [wrong_request; ApiTick (noon + 5 * Minute); wrong_request;
               wrong_request; wrong_request; wrong_request] (server ∅) in
  Api.authMiddleware handler (noon + 1 * Second) noon noon blank_writer
    (request_with "correct-token") s5
  = (s5, Api.jsonError "Too many failed attempts" Api.StatusTooManyRequests
           (Api.Header_Set "Retry-After" "900" blank_writer)).
Proof.
  intros s5.
  destruct (api_lockout_after_five_failures handler (server ∅) peer
              wrong_request wrong_request wrong_request wrong_request
              [ApiTick (noon + 5 * Minute)] [] [] []
              noon noon noon blank_writer (request_with "wrong"))
    as (_ & Hlocked & _).
  - reflexivity.
  - repeat (apply List.Forall_cons; [apply wrong_request_fails|]).
    apply List.Forall_nil.
  - apply List.Forall_cons; [|apply List.Forall_nil]. vm_compute. discriminate.
  - apply List.Forall_nil.
  - apply List.Forall_nil.
  - apply List.Forall_nil.
  - apply Hlocked; [reflexivity|]. vm_compute. reflexivity.
Defined.

Lemma api_reap_rule_witness :
  Api.cleanupSweep (noon + 46 * Minute) (Api.failedAttempts locked_server) !! peer
  = None.
Proof.
  apply (api_reap_rule (noon + 46 * Minute) (Api.failedAttempts locked_server)
           peer {| Api.count := 5; Api.lockedUntil := noon + 15 * Minute;
                   Api.lastAttempt := noon |}).
  - apply lookup_singleton_eq.
  - split; vm_compute; reflexivity.
Defined.

Lemma api_table_grows_witness :
  size (Api.failedAttempts
          (Api.recordAPIFailedAttempt noon noon "198.51.100.9:4000" locked_server))
  = S (size (Api.failedAttempts locked_server)).
Proof.
  apply (api_table_grows noon noon "198.51.100.9:4000" locked_server).
  apply lookup_singleton_ne. discriminate.
Defined.

Lemma api_unlocked_decision_witness :
  Api.authMiddleware handler noon noon noon blank_writer
    (request_with "Bearer correct-token") (server ∅)
  = (Api.with_failedAttempts (server ∅) (delete peer ∅),
     handler blank_writer (request_with "Bearer correct-token")).
Proof.
  apply (api_unlocked_decision handler noon noon noon blank_writer
           (request_with "Bearer correct-token") (server ∅)).
  - reflexivity.
  - split; [by vm_compute|by vm_compute].
Defined.

Lemma reachable_records_are_wellformed_witness :
  1 <= 1 <= Z.of_nat (length [wrong_call]).
Proof.
  apply (@reachable_records_are_wellformed hex_lib None secret [wrong_call] peer
           {| Auth.count := 1; Auth.lockedUntil := 0 |}).
  - vm_compute. reflexivity.
  - vm_compute. reflexivity.
Defined.

Lemma crowd_table_member n i :
  (i < n)%nat ->
  crowd_table n !! crowd_peer i
  = Some {| Auth.count := 5; Auth.lockedUntil := noon + 60 * Minute |}.
Proof.
  induction n as [|n IH]; intros Hi; [lia|]. simpl.
  destruct (decide (i = n)) as [->|Hne].
  - by rewrite lookup_insert_eq.
  - rewrite lookup_insert_ne; [apply IH; lia|].
    intros Heq%crowd_peer_inj. lia.
Qed.

Lemma full_table_restarts_the_count_witness :
  Auth.failedAttempts
    (Auth.recordFailedAttempt (noon + 61 * Minute) (noon + 61 * Minute)
       (crowd_peer 0) crowd).1 !! crowd_peer 0
  = Some {| Auth.count := 1; Auth.lockedUntil := 0 |}.
Proof.
  apply (full_table_restarts_the_count (noon + 61 * Minute) (noon + 61 * Minute)
           (crowd_peer 0) crowd
           {| Auth.count := 5; Auth.lockedUntil := noon + 60 * Minute |}).
  - exact crowd_at_capacity.
  - unfold crowd, gateway, Auth.failedAttempts. apply crowd_table_member.
    unfold Auth.maxRecords. lia.
  - vm_compute. reflexivity.
Defined.

Lemma ValidateSignedToken_accepts_exactly_witness :
  @Auth.ValidateSignedToken hex_lib "476f" "key"
  = Auth.fmt_Errorf "invalid token format".
Proof.
  apply (@ValidateSignedToken_accepts_exactly hex_lib "476f" "key").
  reflexivity.
Defined.

Lemma revoked_sessions_are_gone_witness :
  Auth.RevokeSession "0000" one_session = one_session.
Proof.
  apply (proj1 (proj2 (proj2 (proj2 revoked_sessions_are_gone)))
           "0000"%string one_session).
  vm_compute. reflexivity.
Defined.

Lemma a_second_CreateSession_starts_anew_witness :
  Auth.GetActiveSessions
    (Auth.CreateSession (noon + 1) "6f1d" "198.51.100.9" one_session).1
  = Auth.GetActiveSessions one_session.
Proof.
  pose proof (a_second_CreateSession_starts_anew (noon + 1) (noon + 2) "6f1d"
                "198.51.100.9" one_session 1%positive
                {| Auth.session_Token := "6f1d"; Auth.ClientIP := "203.0.113.7";
                   Auth.CreatedAt := noon; Auth.LastUsed := noon |}) as H.
  destruct (Auth.CreateSession (noon + 1) "6f1d" "198.51.100.9" one_session)
    as [sm1 p1] eqn:E.
  apply H; vm_compute; reflexivity.
Defined.

Lemma sessions_point_to_their_own_object_witness :
  exists s,
    Auth.heap (session_run [Auth.CallCreateSession noon "6f1d" "203.0.113.7"]
                 (Auth.NewSessionManager ∅)) !! 1%positive = Some s
    /\ Auth.session_Token s = "6f1d".
Proof.
  apply (proj1 (sessions_point_to_their_own_object ∅
                  [Auth.CallCreateSession noon "6f1d" "203.0.113.7"])
           "6f1d"%string 1%positive).
  vm_compute. reflexivity.
Defined.

Lemma routes_and_their_guards_witness :
  Api.Header
    (Api.authMiddleware handler noon noon noon (hardened blank_writer)
       (request_with "wrong") (server ∅)).2 !! "X-Frame-Options"
  = Some "DENY".
Proof.
  apply (proj2 (proj2 (proj2 (proj2 (proj2 (proj2
           (routes_and_their_guards handler handler handler handler handler))))))
           handler noon noon noon blank_writer (request_with "wrong") (server ∅)).
  right. right. by vm_compute.
Defined.

(** ** A fresh REST server *)

(** X20. The first request to a server made by [NewServer] reaches the
    handler, with the server unchanged, when its Authorization header is
    not empty and is the token with or without "Bearer " in front.
    Every other first request is answered 401 and leaves one record with
    a count of one for its address.  A server made with an empty token
    lets the header "Bearer " in. *)
Theorem new_server_first_request next tok v nc na nl w r :
  let s := Api.NewServer tok v in
  let auth := Api.Header_Get r "Authorization" in
  let out := Api.authMiddleware next nc na nl w r s in
  (auth <> "" -> TrimPrefix auth "Bearer " = tok -> out = (s, next w r))
  /\ (auth = "" \/ TrimPrefix auth "Bearer " <> tok ->
      Api.StatusCode out.2 = Some Api.StatusUnauthorized
      /\ Api.failedAttempts out.1
         = {[ Api.RemoteAddr r := {| Api.count := 1; Api.lockedUntil := 0;
                                     Api.lastAttempt := na |} ]}
      /\ Api.token out.1 = tok)
  /\ (tok = "" -> auth = "Bearer " -> out = (s, next w r)).
Proof.
  intros s auth out.
  assert (Hpass : auth <> "" -> TrimPrefix auth "Bearer " = tok ->
                  out = (s, next w r)).
  { intros Ha Ht. subst out. unfold Api.authMiddleware. cbv zeta. fold auth.
    simpl. rewrite lookup_empty. apply String.eqb_neq in Ha. rewrite Ha.
    rewrite (proj2 (ConstantTimeCompare_eq _ _) Ht). simpl.
    by rewrite delete_empty. }
  split; [done|]. split.
  - intros Hbad.
    assert (Hrec : Api.recordAPIFailedAttempt na nl (Api.RemoteAddr r) s
                   = Api.with_failedAttempts s
                       {[ Api.RemoteAddr r := {| Api.count := 1; Api.lockedUntil := 0;
                                                 Api.lastAttempt := na |} ]}).
    { unfold Api.recordAPIFailedAttempt. cbv zeta. simpl.
      rewrite lookup_empty, lookup_insert_eq. simpl.
      change (wrap_int (0 + 1)) with 1. simpl.
      by rewrite insert_insert_eq. }
    subst out. unfold Api.authMiddleware. cbv zeta. fold auth.
    simpl. rewrite lookup_empty.
    destruct (String.eqb auth "") eqn:Ee.
    + by rewrite Hrec.
    + apply String.eqb_neq in Ee. destruct Hbad as [?|Hbad]; [done|].
      destruct (ConstantTimeCompare _ _ =? 1) eqn:Ec.
      * by apply ConstantTimeCompare_eq in Ec.
      * simpl. by rewrite Hrec.
  - intros -> Ha. apply Hpass; [by rewrite Ha|]. subst auth. by rewrite Ha.
Qed.

Lemma new_server_first_request_witness :
  Api.authMiddleware handler noon noon noon blank_writer
    (request_with "Bearer correct-token") (Api.NewServer secret "1.0.0")
  = (Api.NewServer secret "1.0.0",
     handler blank_writer (request_with "Bearer correct-token")).
Proof.
  apply (proj1 (new_server_first_request handler secret "1.0.0" noon noon noon
                  blank_writer (request_with "Bearer correct-token"))).
  - vm_compute. discriminate.
  - vm_compute. reflexivity.
Defined.
